(** * RNA strand folding score

    A verification development for
    [src/solutions/python/rna-strand-folding-score.py]: the interval
    dynamic programme [maxRNAFoldingScore] and its nested helper [can_pair].

    The Python function works on a list of row lists that it allocates
    itself and updates in place.  It is embedded here as a computation in a
    state-and-exception monad over a store of list objects, with Python's
    indexing rules (negative indices count from the end, anything else out of
    range raises [IndexError]) written out.  Python integers are [Z]; a
    Python [str] is a [string], read as the list of its characters.

    Behind it come three more pieces of the repository:
    [Solution.twoSum] of [src/solutions/python/two-sum.py], with its
    dictionary as a finite map; [TestResult] and
    [TestRunner._parse_pytest_output] of [src/tools/test_runner.py]; and
    [ProblemManager._generate_id] of [src/tools/problem_manager.py]. *)

From Stdlib Require Import ZArith Ascii String.
From stdpp Require Import base tactics option list numbers gmap.

Local Open Scope Z_scope.

(** ** Python values and the store *)

(** The exceptions the embedded fragment of Python can raise.  [DanglingRef]
    has no Python counterpart: it is what the model answers when a reference
    that was never allocated is followed, and is shown never to happen. *)
Inductive exn : Type :=
  | IndexError
  | DanglingRef.

Inductive res (A : Type) : Type :=
  | Ok (a : A)
  | Raise (e : exn).
Arguments Ok {A} a.
Arguments Raise {A} e.

(** A reference to a list object, and the store of all list objects of
    integers that are alive.  Allocation appends to the store. *)
Abbreviation loc := nat.
Abbreviation heap := (list (list Z)).

(** Computations that read and write the store and may raise.  An
    exception ends the computation and leaves the store as it is then. *)
Definition M (A : Type) : Type := heap → res A * heap.

Definition ret {A} (a : A) : M A := λ h, (Ok a, h).

Definition bind {A B} (m : M A) (f : A → M B) : M B :=
  λ h, match m h with
       | (Ok a, h') => f a h'
       | (Raise e, h') => (Raise e, h')
       end.

Definition lift {A} (r : res A) : M A := λ h, (r, h).

Notation "x <- m ;; k" := (bind m (λ x, k))
  (at level 100, m at next level, right associativity, only parsing).
Notation "m ;;; k" := (bind m (λ _, k))
  (at level 100, right associativity, only parsing).

(** [xs[i]] on a Python sequence: a negative index counts from the end. *)
Definition py_norm_index (len i : Z) : Z :=
  if i <? 0 then i + len else i.

Definition py_getitem {A} (xs : list A) (i : Z) : res A :=
  let i' := py_norm_index (Z.of_nat (length xs)) i in
  if (0 <=? i') && (i' <? Z.of_nat (length xs)) then
    match xs !! Z.to_nat i' with
    | Some x => Ok x
    | None => Raise IndexError
    end
  else Raise IndexError.

(** [xs[i] = v] on a Python list. *)
Definition py_setitem {A} (xs : list A) (i : Z) (v : A) : res (list A) :=
  let i' := py_norm_index (Z.of_nat (length xs)) i in
  if (0 <=? i') && (i' <? Z.of_nat (length xs)) then
    Ok (<[Z.to_nat i' := v]> xs)
  else Raise IndexError.

(** [range(a, b)]. *)
Definition range (a b : Z) : list Z := seqZ a (b - a).

(** [[0] * n]: empty when [n] is not positive. *)
Definition py_repeat_zero (n : Z) : list Z := replicate (Z.to_nat n) 0.

(** Store primitives. *)
Definition new_list (v : list Z) : M loc :=
  λ h, (Ok (length h), h ++ [v]).

Definition load (r : loc) : M (list Z) :=
  λ h, match h !! r with
       | Some v => (Ok v, h)
       | None => (Raise DanglingRef, h)
       end.

Definition store (r : loc) (v : list Z) : M unit :=
  λ h, match h !! r with
       | Some _ => (Ok tt, <[r := v]> h)
       | None => (Raise DanglingRef, h)
       end.

(** [for x in xs: body]. *)
Fixpoint for_ {A} (xs : list A) (body : A → M unit) : M unit :=
  match xs with
  | [] => ret tt
  | x :: xs' => body x ;;; for_ xs' body
  end.

(** [[e for x in xs]]. *)
Fixpoint comprehension {A B} (xs : list A) (e : A → M B) : M (list B) :=
  match xs with
  | [] => ret []
  | x :: xs' => y <- e x ;; ys <- comprehension xs' e ;; ret (y :: ys)
  end.

(** ** The program *)

(** [dp[i][j]] and [dp[i][j] = v], where [dp] is a list of references to
    row objects. *)
Definition getitem2 (dp : list loc) (i j : Z) : M Z :=
  r <- lift (py_getitem dp i) ;;
  row <- load r ;;
  lift (py_getitem row j).

Definition setitem2 (dp : list loc) (i j : Z) (v : Z) : M unit :=
  r <- lift (py_getitem dp i) ;;
  row <- load r ;;
  row' <- lift (py_setitem row j v) ;;
  store r row'.

(** The nested helper of the source. *)
Definition can_pair (x y : ascii) : bool :=
  (Ascii.eqb x "A" && Ascii.eqb y "U") ||
  (Ascii.eqb x "U" && Ascii.eqb y "A") ||
  (Ascii.eqb x "G" && Ascii.eqb y "C") ||
  (Ascii.eqb x "C" && Ascii.eqb y "G").

(** The body of the innermost loop, for partner [k] of position [i] in the
    range that ends at [j]. *)
Definition try_pair (sequence : list ascii) (dp : list loc) (i j k : Z)
  : M unit :=
  x <- lift (py_getitem sequence i) ;;
  y <- lift (py_getitem sequence k) ;;
  if can_pair x y then
    let score := 1 in
    score <- (if k <? j
              then v <- getitem2 dp (k + 1) j ;; ret (score + v)
              else ret score) ;;
    score <- (if i + 1 <? k
              then v <- getitem2 dp (i + 1) (k - 1) ;; ret (score + v)
              else ret score) ;;
    cur <- getitem2 dp i j ;;
    setitem2 dp i j (Z.max cur score)
  else ret tt.

(** The body of the loop over start positions, for range length [l]. *)
Definition fill_cell (sequence : list ascii) (dp : list loc) (l i : Z)
  : M unit :=
  let j := i + l - 1 in
  v <- getitem2 dp (i + 1) j ;;
  setitem2 dp i j v ;;;
  for_ (range (i + 1) (j + 1)) (try_pair sequence dp i j).

Definition fill_table (sequence : list ascii) (dp : list loc) (n : Z)
  : M unit :=
  for_ (range 2 (n + 1)) (λ l,
    for_ (range 0 (n - l + 1)) (fill_cell sequence dp l)).

Definition new_table (n : Z) : M (list loc) :=
  comprehension (range 0 n) (λ _, new_list (py_repeat_zero n)).

Definition maxRNAFoldingScore (sequence : string) : M Z :=
  let s := list_ascii_of_string sequence in
  let n := Z.of_nat (length s) in
  dp <- new_table n ;;
  fill_table s dp n ;;;
  getitem2 dp 0 (n - 1).

(** What the caller gets from a call in a store that holds no list object
    yet: the score or the exception. *)
Definition call (sequence : string) : res Z :=
  (maxRNAFoldingScore sequence []).1.

(** ** Pairing sets *)

(** Complementary symbols: A with U, G with C. *)
Definition complementary (x y : ascii) : Prop :=
  (x = "A" ∧ y = "U")%char ∨ (x = "U" ∧ y = "A")%char ∨
  (x = "G" ∧ y = "C")%char ∨ (x = "C" ∧ y = "G")%char.

(** The alphabet of RNA sequences. *)
Definition in_alphabet (x : ascii) : Prop :=
  (x = "A" ∨ x = "U" ∨ x = "G" ∨ x = "C")%char.

(** A sequence with a symbol from outside the alphabet. *)
Definition has_foreign_symbol (s : list ascii) : Prop :=
  ∃ x, x ∈ s ∧ ¬ in_alphabet x.

(** A pairing [(i, j)] joins positions [i] and [j]. *)
Abbreviation pairing := (nat * nat)%type.

(** Pairings [(i, j)] and [(k, l)] cross when [i < k < j < l]. *)
Definition crossing (p q : pairing) : Prop :=
  (p.1 < q.1 ∧ q.1 < p.2 ∧ p.2 < q.2)%nat.

Definition share_position (p q : pairing) : Prop :=
  p.1 = q.1 ∨ p.1 = q.2 ∨ p.2 = q.1 ∨ p.2 = q.2.

(** A valid pairing set of a sequence: a set of pairings [(i, j)] with
    [i < j] that join complementary symbols of the sequence, where no
    position belongs to more than one pairing and no two pairings cross. *)
Record valid_pairing_set (s : list ascii) (P : list pairing) : Prop := {
  vps_set : NoDup P;
  vps_pair : ∀ i j, (i, j) ∈ P →
    (i < j)%nat ∧ ∃ x y, s !! i = Some x ∧ s !! j = Some y ∧ complementary x y;
  vps_disjoint : ∀ p q, p ∈ P → q ∈ P → p ≠ q → ¬ share_position p q;
  vps_nocross : ∀ p q, p ∈ P → q ∈ P → ¬ crossing p q
}.

(** [m] is the maximum cardinality over all valid pairing sets of [s]. *)
Definition max_pairing_count (s : list ascii) (m : nat) : Prop :=
  (∃ P, valid_pairing_set s P ∧ length P = m) ∧
  (∀ P, valid_pairing_set s P → (length P ≤ m)%nat).

(** Pairing sets that use only positions of the range [lo, hi). *)
Definition within (lo hi : nat) (P : list pairing) : Prop :=
  ∀ p, p ∈ P → (lo ≤ p.1 ∧ p.2 < hi)%nat.

Definition achievable (s : list ascii) (lo hi m : nat) : Prop :=
  ∃ P, valid_pairing_set s P ∧ within lo hi P ∧ length P = m.

(** [m] is the best score of the range [lo, hi). *)
Definition optimum (s : list ascii) (lo hi m : nat) : Prop :=
  achievable s lo hi m ∧
  (∀ P, valid_pairing_set s P → within lo hi P → (length P ≤ m)%nat).

(** [m] is the best score of the range [lo, hi) among the pairing sets that
    leave [lo] alone or pair it with a position before [k]. *)
Definition optimum_upto (s : list ascii) (lo hi k m : nat) : Prop :=
  achievable s lo hi m ∧
  (∀ P, valid_pairing_set s P → within lo hi P →
        (∀ k', (lo, k') ∈ P → (k' < k)%nat) → (length P ≤ m)%nat).

(** ** The table of scores *)

(** The rows that a call allocates behind the [base] objects the store
    held before: their references, and the entry at row [i], column [j]. *)
Definition row_refs (base n : nat) : list loc := seq base n.

Definition cell (t : list (list Z)) (i j : nat) : option Z :=
  t !! i ≫= λ row, row !! j.

Definition square (n : nat) (t : list (list Z)) : Prop :=
  length t = n ∧ ∀ i row, t !! i = Some row → length row = n.

(** Total correctness of a computation started in the store [h0 ++ t]: it
    raises nothing, leaves [h0] as it was and turns the rows [t] into rows
    [t'] for which the postcondition holds. *)
Definition triple (h0 : heap) {A} (P : list (list Z) → Prop) (m : M A)
    (Q : A → list (list Z) → Prop) : Prop :=
  ∀ t, P t → ∃ a t', m (h0 ++ t) = (Ok a, h0 ++ t') ∧ Q a t'.

(** [dp[i][j]] holds the best score of the positions [i..j]. *)
Definition cell_optimal (s : list ascii) (t : list (list Z)) (i j : nat)
  : Prop :=
  ∃ m, cell t i j = Some (Z.of_nat m) ∧ optimum s i (S j) m.

(** The state of the table when the loops reach length [l] and start
    position [i0]: every shorter range, and every range of length [l] that
    starts before [i0], holds its best score. *)
Definition filled (s : list ascii) (l i0 : nat) (t : list (list Z)) : Prop :=
  square (length s) t ∧
  ∀ a b, (a ≤ b < length s)%nat →
         (b + 1 < a + l ∨ (b + 1 = a + l ∧ a < i0))%nat →
         cell_optimal s t a b.

(** The state of the table when the innermost loop reaches partner [k]. *)
Definition filling (s : list ascii) (l i k : nat) (t : list (list Z)) : Prop :=
  filled s l i t ∧
  ∃ m, cell t i (i + l - 1) = Some (Z.of_nat m) ∧ optimum_upto s i (i + l) k m.

(** ** Slices and reversal of sequences *)

(** [sequence[lo:hi]] for [0 <= lo <= hi <= len(sequence)]. *)
Definition py_slice (sequence : string) (lo hi : nat) : string :=
  substring lo (hi - lo) sequence.

(** [sequence[::-1]]. *)
Definition py_reversed (sequence : string) : string :=
  string_of_list_ascii (reverse (list_ascii_of_string sequence)).

(** Moving a pairing [d] positions to the right or to the left, and
    mirroring it in a sequence of [n] symbols. *)
Definition shift_right (d : nat) (p : pairing) : pairing :=
  (p.1 + d, p.2 + d)%nat.

Definition shift_left (d : nat) (p : pairing) : pairing :=
  (p.1 - d, p.2 - d)%nat.

Definition mirror (n : nat) (p : pairing) : pairing :=
  (n - 1 - p.2, n - 1 - p.1)%nat.

(** [sequence.count(c)] for a single symbol [c]. *)
Fixpoint py_count (c : ascii) (l : list ascii) : nat :=
  match l with
  | [] => 0%nat
  | x :: l' => ((if Ascii.eqb x c then 1 else 0) + py_count c l')%nat
  end.

(** The positions of the symbol [c] in [l], counted from [k]. *)
Fixpoint positions_from (k : nat) (c : ascii) (l : list ascii) : list nat :=
  match l with
  | [] => []
  | x :: l' =>
      (if Ascii.eqb x c then [k] else []) ++ positions_from (S k) c l'
  end.

(** ['x' * k]. *)
Definition py_repeat_symbol (x : ascii) (k : nat) : string :=
  string_of_list_ascii (replicate k x).

(** The pairings [(lo, lo + 2k - 1)], [(lo + 1, lo + 2k - 2)], ... that
    nest [k] deep. *)
Fixpoint nested (lo k : nat) : list pairing :=
  match k with
  | O => []
  | S k' => (lo, lo + 2 * k' + 1)%nat :: nested (S lo) k'
  end.

(** ** Two Sum

    [Solution.twoSum] of [src/solutions/python/two-sum.py].  The dictionary
    [num_to_index] is a finite map from integers to integers. *)

(** [enumerate(xs)], counting from [i]. *)
Fixpoint enumerate_from {A} (i : Z) (xs : list A) : list (Z * A) :=
  match xs with
  | [] => []
  | x :: xs' => (i, x) :: enumerate_from (i + 1) xs'
  end.

Definition enumerate {A} (xs : list A) : list (Z * A) := enumerate_from 0 xs.

(** The loop over [enumerate(nums)], started with the dictionary built so
    far.  The [return] inside the loop ends it; when the items run out the
    function returns [[]]. *)
Fixpoint twoSum_loop (target : Z) (num_to_index : gmap Z Z)
    (items : list (Z * Z)) : list Z :=
  match items with
  | [] => []
  | (i, num) :: items' =>
      let complement := target - num in
      match num_to_index !! complement with
      | Some a => [a; i]
      | None => twoSum_loop target (<[num := i]> num_to_index) items'
      end
  end.

Definition twoSum (nums : list Z) (target : Z) : list Z :=
  twoSum_loop target ∅ (enumerate nums).

(** The numbers at the positions [a] and [b] of [nums] add up to
    [target]. *)
Definition sums_to (nums : list Z) (target : Z) (a b : nat) : Prop :=
  ∃ x y, nums !! a = Some x ∧ nums !! b = Some y ∧ x + y = target.

(** The dictionary after the numbers [seen]: every number seen is a key,
    and a key maps to the last position its number was seen at. *)
Definition last_seen (seen : list Z) (num_to_index : gmap Z Z) : Prop :=
  (∀ v, v ∈ seen → is_Some (num_to_index !! v)) ∧
  (∀ v a, num_to_index !! v = Some a →
     ∃ i : nat, a = Z.of_nat i ∧ seen !! i = Some v ∧
                ∀ i' : nat, seen !! i' = Some v → (i' ≤ i)%nat).

(** What [twoSum] answers: [[]] when no two positions add up to [target];
    otherwise the pair [[a, b]] with [a < b] whose second position [b] is
    the first that closes a pair, and whose first position [a] is the last
    one before [b] that fits. *)
Definition twoSum_answer (nums : list Z) (target : Z) (r : list Z) : Prop :=
  (r = [] ∧ ∀ a b : nat, (a < b)%nat → ¬ sums_to nums target a b) ∨
  (∃ a b : nat,
     r = [Z.of_nat a; Z.of_nat b] ∧ (a < b)%nat ∧ sums_to nums target a b ∧
     (∀ a' b' : nat, (a' < b')%nat → sums_to nums target a' b' → (b ≤ b')%nat) ∧
     (∀ a' : nat, (a' < b)%nat → sums_to nums target a' b → (a' ≤ a)%nat)).

(** ** Test results

    [TestResult] and [TestRunner._parse_pytest_output] of
    [src/tools/test_runner.py].  Times are floating-point numbers that the
    code only stores; their type is a parameter [T], and [zero] stands for
    the literal [0.0]. *)

(** An entry of [details]: a dictionary with the keys ['name'], ['status'],
    ['message'] and ['time']. *)
Record test_detail (T : Type) : Type := {
  detail_name : string;
  detail_status : string;
  detail_message : string;
  detail_time : T
}.
Arguments detail_name {T} _.
Arguments detail_status {T} _.
Arguments detail_message {T} _.
Arguments detail_time {T} _.

Record TestResult (T : Type) : Type := {
  passed : Z;
  failed : Z;
  errors : Z;
  total : Z;
  details : list (test_detail T);
  execution_time : T
}.
Arguments passed {T} _.
Arguments failed {T} _.
Arguments errors {T} _.
Arguments total {T} _.
Arguments details {T} _.
Arguments execution_time {T} _.

(** [TestResult()]. *)
Definition TestResult_init {T} (zero : T) : TestResult T :=
  {| passed := 0; failed := 0; errors := 0; total := 0;
     details := []; execution_time := zero |}.

(** [self.add_result(name, status, message, time)]. *)
Definition add_result {T} (self : TestResult T)
    (name status message : string) (time : T) : TestResult T :=
  let details' :=
    details self ++ [{| detail_name := name; detail_status := status;
                        detail_message := message; detail_time := time |}] in
  let '(passed', failed', errors') :=
    if String.eqb status "passed" then (passed self + 1, failed self, errors self)
    else if String.eqb status "failed" then (passed self, failed self + 1, errors self)
    else if String.eqb status "error" then (passed self, failed self, errors self + 1)
    else (passed self, failed self, errors self) in
  {| passed := passed'; failed := failed'; errors := errors';
     total := total self + 1;
     details := details'; execution_time := execution_time self |}.

(** The number of entries of [ds] with the status [status]. *)
Definition count_status {T} (status : string) (ds : list (test_detail T)) : Z :=
  Z.of_nat (length (filter (λ d, String.eqb (detail_status d) status = true) ds)).

(** [s.split(sep)] for a separator of one character. *)
Fixpoint py_split_char (sep : ascii) (s : string) : list string :=
  match s with
  | EmptyString => [EmptyString]
  | String c s' =>
      if Ascii.eqb c sep then EmptyString :: py_split_char sep s'
      else match py_split_char sep s' with
           | [] => [String c EmptyString]
           | w :: ws => String c w :: ws
           end
  end.

(** [c.isspace()] for the characters up to U+00FF: the control characters
    U+0009 to U+000D and U+001C to U+001F, the space, U+0085 and U+00A0. *)
Definition py_isspace (c : ascii) : bool :=
  let n := N_of_ascii c in
  ((9 <=? n) && (n <=? 13) || (28 <=? n) && (n <=? 31) ||
   (n =? 32) || (n =? 133) || (n =? 160))%N.

(** [s.lstrip()], [s.rstrip()] and [s.strip()]. *)
Fixpoint py_lstrip (s : string) : string :=
  match s with
  | EmptyString => EmptyString
  | String c s' => if py_isspace c then py_lstrip s' else s
  end.

Fixpoint py_rstrip (s : string) : string :=
  match s with
  | EmptyString => EmptyString
  | String c s' =>
      match py_rstrip s' with
      | EmptyString => if py_isspace c then EmptyString else String c EmptyString
      | r => String c r
      end
  end.

Definition py_strip (s : string) : string := py_rstrip (py_lstrip s).

(** [sub in s]. *)
Fixpoint py_contains (sub s : string) : bool :=
  String.prefix sub s ||
  match s with
  | EmptyString => false
  | String _ s' => py_contains sub s'
  end.

(** [s.split()]: the words of [s] between runs of white space.  [word] is
    the word being read, in reverse. *)
Fixpoint py_split_words_from (word : list ascii) (s : string) : list string :=
  match s with
  | EmptyString =>
      match word with
      | [] => []
      | _ => [string_of_list_ascii (reverse word)]
      end
  | String c s' =>
      if py_isspace c then
        match word with
        | [] => py_split_words_from [] s'
        | _ => string_of_list_ascii (reverse word) :: py_split_words_from [] s'
        end
      else py_split_words_from (c :: word) s'
  end.

Definition py_split_words (s : string) : list string :=
  py_split_words_from [] s.

(** [a or b] on strings. *)
Definition py_or (a b : string) : string :=
  match a with
  | EmptyString => b
  | _ => a
  end.

(** The test of the loop of [_parse_pytest_output] on a stripped line. *)
Definition is_result_line (line : string) : bool :=
  py_contains "::" line &&
  (py_contains "PASSED" line || py_contains "FAILED" line ||
   py_contains "ERROR" line).

(** The body of the loop of [_parse_pytest_output]. *)
Definition parse_line {T} (zero : T) (result : TestResult T) (line : string)
  : TestResult T :=
  let line := py_strip line in
  if is_result_line line then
    let parts := py_split_words line in
    let test_name := match parts with
                     | [] => "unknown"%string
                     | w :: _ => w
                     end in
    if py_contains "PASSED" line then
      add_result result test_name "passed" "" zero
    else if py_contains "FAILED" line then
      add_result result test_name "failed" line zero
    else if py_contains "ERROR" line then
      add_result result test_name "error" line zero
    else result
  else result.

Definition _parse_pytest_output {T} (zero : T)
    (stdout stderr : string) (returncode : Z) : TestResult T :=
  let result := TestResult_init zero in
  let lines := py_split_char "010" stdout ++ py_split_char "010" stderr in
  let result := foldl (parse_line zero) result lines in
  if total result =? 0 then
    if returncode =? 0 then
      add_result result "pytest" "passed" "All tests passed" zero
    else
      add_result result "pytest" "failed" (py_or stderr stdout) zero
  else result.

(** The counters of a [TestResult] agree with its [details]. *)
Definition counters_agree {T} (r : TestResult T) : Prop :=
  total r = Z.of_nat (length (details r)) ∧
  passed r = count_status "passed" (details r) ∧
  failed r = count_status "failed" (details r) ∧
  errors r = count_status "error" (details r).

(** A call of [add_result] with the fields of [d] as arguments. *)
Definition add_detail {T} (self : TestResult T) (d : test_detail T)
  : TestResult T :=
  add_result self (detail_name d) (detail_status d) (detail_message d)
    (detail_time d).

(** The statuses that [add_result] counts. *)
Definition counted_status (status : string) : Prop :=
  status = "passed"%string ∨ status = "failed"%string ∨ status = "error"%string.

(** The lines of the output that [_parse_pytest_output] takes for the
    result of a test. *)
Definition result_lines (stdout stderr : string) : list string :=
  filter (λ line, is_result_line (py_strip line) = true)
    (py_split_char "010" stdout ++ py_split_char "010" stderr).

(** ** Problem identifiers

    [ProblemManager._generate_id] of [src/tools/problem_manager.py].  The
    character tables are those of Python for the characters up to
    U+00FF. *)

(** [c.lower()]: the letters A to Z and the capital letters U+00C0 to
    U+00DE (U+00D7, the multiplication sign, is no letter) move 32 places
    up. *)
Definition py_lower_char (c : ascii) : ascii :=
  let n := N_of_ascii c in
  if ((65 <=? n) && (n <=? 90) ||
      (192 <=? n) && (n <=? 222) && negb (n =? 215))%N
  then ascii_of_N (n + 32)
  else c.

(** [\w] in a pattern on [str]: the underscore and the characters whose
    [isalnum()] is true. *)
Definition re_word (c : ascii) : bool :=
  let n := N_of_ascii c in
  ((48 <=? n) && (n <=? 57) || (65 <=? n) && (n <=? 90) || (n =? 95) ||
   (97 <=? n) && (n <=? 122) ||
   (n =? 170) || (n =? 178) || (n =? 179) || (n =? 181) || (n =? 185) ||
   (n =? 186) || (188 <=? n) && (n <=? 190) ||
   (192 <=? n) && (n <=? 214) || (216 <=? n) && (n <=? 246) ||
   (248 <=? n) && (n <=? 255))%N.

(** The class [[-\s]]. *)
Definition re_dash_or_space (c : ascii) : bool :=
  Ascii.eqb c "-" || py_isspace c.

(** [re.sub(r'[^\w\s-]', '', s)]: the characters outside the class are
    dropped. *)
Definition re_sub_other (s : list ascii) : list ascii :=
  filter (λ c, re_word c || re_dash_or_space c = true) s.

(** [re.sub(r'[-\s]+', '-', s)]: every maximal run of hyphens and white
    space becomes one hyphen.  [in_run] tells that the character before
    was of the run. *)
Fixpoint re_sub_runs (in_run : bool) (s : list ascii) : list ascii :=
  match s with
  | [] => []
  | c :: s' =>
      if re_dash_or_space c then
        if in_run then re_sub_runs true s' else "-"%char :: re_sub_runs true s'
      else c :: re_sub_runs false s'
  end.

(** [s.lstrip('-')], [s.rstrip('-')] and [s.strip('-')]. *)
Fixpoint py_lstrip_dash (s : list ascii) : list ascii :=
  match s with
  | [] => []
  | c :: s' => if Ascii.eqb c "-" then py_lstrip_dash s' else s
  end.

Fixpoint py_rstrip_dash (s : list ascii) : list ascii :=
  match s with
  | [] => []
  | c :: s' =>
      match py_rstrip_dash s' with
      | [] => if Ascii.eqb c "-" then [] else [c]
      | r => c :: r
      end
  end.

Definition py_strip_dash (s : list ascii) : list ascii :=
  py_rstrip_dash (py_lstrip_dash s).

Definition _generate_id (title : string) : string :=
  let problem_id :=
    re_sub_other (py_lower_char <$> list_ascii_of_string title) in
  let problem_id := re_sub_runs false problem_id in
  let problem_id := py_strip_dash problem_id in
  string_of_list_ascii problem_id.

(** The characters an identifier is made of: the hyphen and the word
    characters that [lower()] leaves as they are. *)
Definition id_char (c : ascii) : Prop :=
  c = "-"%char ∨ (re_word c = true ∧ py_lower_char c = c).

(** No two hyphens follow each other. *)
Fixpoint single_dashes (s : list ascii) : Prop :=
  match s with
  | [] => True
  | c :: s' => (c = "-"%char → head s' ≠ Some "-"%char) ∧ single_dashes s'
  end.

(** The shape of an identifier: identifier characters, single hyphens,
    none of them first or last. *)
Definition well_formed_id (s : list ascii) : Prop :=
  Forall id_char s ∧ single_dashes s ∧
  head s ≠ Some "-"%char ∧ last s ≠ Some "-"%char.

(** ** Facts about pairing sets *)

Section pairing_sets.
Local Open Scope nat_scope.
Variable s : list ascii.

Lemma can_pair_complementary x y : can_pair x y = true ↔ complementary x y.
Proof.
  unfold can_pair, complementary.
  rewrite !orb_true_iff, !andb_true_iff, !Ascii.eqb_eq. tauto.
Qed.

Lemma valid_nil : valid_pairing_set s [].
Proof.
  split; [constructor | | |]; intros *; rewrite ?elem_of_nil; tauto.
Qed.

Lemma within_nil lo hi : within lo hi [].
Proof. intros p Hp. by apply elem_of_nil in Hp. Qed.

Lemma within_weaken lo hi lo' hi' P :
  within lo hi P → lo' ≤ lo → hi ≤ hi' → within lo' hi' P.
Proof. intros HP ?? p Hp. specialize (HP p Hp). lia. Qed.

Lemma valid_within P : valid_pairing_set s P → within 0 (length s) P.
Proof.
  intros HP [i j] Hp. destruct (vps_pair _ _ HP i j Hp) as (_ & x & y & _ & Hj & _).
  apply lookup_lt_Some in Hj. simpl. lia.
Qed.

Lemma valid_submseteq P Q :
  valid_pairing_set s P → Q ⊆+ P → valid_pairing_set s Q.
Proof.
  intros HP HQ.
  assert (∀ p, p ∈ Q → p ∈ P) as Hin
    by (intros p Hp; by eapply elem_of_submseteq).
  split.
  - destruct (submseteq_Permutation _ _ HQ) as [K HK].
    pose proof (vps_set _ _ HP) as HN. rewrite HK in HN.
    by apply list.NoDup_app in HN as [? _].
  - intros i j Hp. apply (vps_pair _ _ HP); auto.
  - intros p q Hp Hq. apply (vps_disjoint _ _ HP); auto.
  - intros p q Hp Hq. apply (vps_nocross _ _ HP); auto.
Qed.

Lemma within_submseteq lo hi P Q : within lo hi P → Q ⊆+ P → within lo hi Q.
Proof. intros HP HQ p Hp. apply HP. by eapply elem_of_submseteq. Qed.

(** A pairing within a range has its two ends ordered inside it. *)
Lemma valid_within_pair lo hi P i j :
  valid_pairing_set s P → within lo hi P → (i, j) ∈ P → lo ≤ i < j ∧ j < hi.
Proof.
  intros HP HW Hp. destruct (vps_pair _ _ HP i j Hp) as [? _].
  specialize (HW _ Hp). simpl in HW. lia.
Qed.

(** Pairing sets of two ranges that follow each other can be joined. *)
Lemma valid_app lo mid hi P Q :
  valid_pairing_set s P → valid_pairing_set s Q →
  within lo mid P → within mid hi Q →
  valid_pairing_set s (P ++ Q).
Proof.
  intros HP HQ WP WQ.
  pose proof (λ i j, valid_within_pair _ _ _ i j HP WP) as BP.
  pose proof (λ i j, valid_within_pair _ _ _ i j HQ WQ) as BQ.
  destruct HP as [NP PP DP CP], HQ as [NQ PQ DQ CQ].
  split.
  - apply list.NoDup_app. split; [done | split; [| done]].
    intros [i j] Hp Hq. specialize (BP _ _ Hp). specialize (BQ _ _ Hq). lia.
  - intros i j [Hp|Hp]%elem_of_app; auto.
  - intros [i j] [k l] [Hp|Hp]%elem_of_app [Hq|Hq]%elem_of_app Hne; auto.
    + specialize (BP _ _ Hp). specialize (BQ _ _ Hq).
      unfold share_position; simpl. lia.
    + specialize (BQ _ _ Hp). specialize (BP _ _ Hq).
      unfold share_position; simpl. lia.
  - intros [i j] [k l] [Hp|Hp]%elem_of_app [Hq|Hq]%elem_of_app; auto.
    + specialize (BP _ _ Hp). specialize (BQ _ _ Hq).
      unfold crossing; simpl. lia.
    + specialize (BQ _ _ Hp). specialize (BP _ _ Hq).
      unfold crossing; simpl. lia.
Qed.

(** A pairing of [lo] with [k] can be put around a pairing set of the
    positions strictly between them. *)
Lemma valid_cons lo k P x y :
  valid_pairing_set s P → within (S lo) k P →
  lo < k → s !! lo = Some x → s !! k = Some y → complementary x y →
  valid_pairing_set s ((lo, k) :: P).
Proof.
  intros HP WP Hlt Hx Hy Hxy.
  pose proof (λ i j, valid_within_pair _ _ _ i j HP WP) as BP.
  destruct HP as [NP PP DP CP].
  split.
  - constructor; [| done]. intros Hp. specialize (BP _ _ Hp). lia.
  - intros i j [Hp|Hp]%elem_of_cons; [| by auto].
    injection Hp as -> ->. eauto 10.
  - intros [i j] [a b] [Hp|Hp]%elem_of_cons [Hq|Hq]%elem_of_cons Hne; auto.
    + congruence.
    + injection Hp as -> ->. specialize (BP _ _ Hq).
      unfold share_position; simpl. lia.
    + injection Hq as -> ->. specialize (BP _ _ Hp).
      unfold share_position; simpl. lia.
  - intros [i j] [a b] [Hp|Hp]%elem_of_cons [Hq|Hq]%elem_of_cons; auto.
    + injection Hp as -> ->. injection Hq as -> ->. unfold crossing; simpl. lia.
    + injection Hp as -> ->. specialize (BP _ _ Hq).
      unfold crossing; simpl. lia.
    + injection Hq as -> ->. specialize (BP _ _ Hp).
      unfold crossing; simpl. lia.
Qed.

(** *** Optimal scores of ranges *)

Lemma optimum_small lo hi : hi ≤ S lo → optimum s lo hi 0.
Proof.
  intros Hle. split.
  - exists []. split_and!; [apply valid_nil | apply within_nil | done].
  - intros [|[i j] P] HP WP; [done |].
    assert ((i, j) ∈ (i, j) :: P) as Hp by (apply elem_of_cons; auto).
    pose proof (valid_within_pair _ _ _ _ _ HP WP Hp). lia.
Qed.

Lemma optimum_unique lo hi m m' :
  optimum s lo hi m → optimum s lo hi m' → m = m'.
Proof.
  intros [(P & HP & WP & <-) Hm] [(P' & HP' & WP' & <-) Hm'].
  specialize (Hm _ HP' WP'). specialize (Hm' _ HP WP). lia.
Qed.

Lemma optimum_upto_start lo hi m :
  optimum s (S lo) hi m → optimum_upto s lo hi (S lo) m.
Proof.
  intros [(P & HP & WP & <-) Hm]. split.
  - exists P. split_and!; [done | | done]. eapply within_weaken; [done | lia | lia].
  - intros Q HQ WQ Hlo. apply Hm; [done |].
    intros [i j] Hp.
    pose proof (valid_within_pair _ _ _ _ _ HQ WQ Hp) as Hij. simpl.
    destruct (decide (i = lo)) as [->|]; [| lia].
    specialize (Hlo _ Hp). lia.
Qed.

Lemma optimum_upto_skip lo hi k m :
  optimum_upto s lo hi k m →
  (∀ x y, s !! lo = Some x → s !! k = Some y → ¬ complementary x y) →
  optimum_upto s lo hi (S k) m.
Proof.
  intros [Ha Hm] Hno. split; [done |].
  intros Q HQ WQ Hlo. apply Hm; [done | done |].
  intros k' Hp. specialize (Hlo _ Hp).
  destruct (decide (k' = k)) as [->|]; [| lia].
  destruct (vps_pair _ _ HQ _ _ Hp) as (_ & x & y & Hx & Hy & Hxy).
  by destruct (Hno _ _ Hx Hy).
Qed.

(** The pairings of a set that pairs [lo] with [k], other than that one,
    lie strictly between the two or behind [k]. *)
Lemma valid_split lo hi k P :
  valid_pairing_set s P → within lo hi P → (lo, k) ∈ P →
  ∃ P1 P2, valid_pairing_set s P1 ∧ within (S lo) k P1 ∧
           valid_pairing_set s P2 ∧ within (S k) hi P2 ∧
           length P = 1 + length P1 + length P2.
Proof.
  intros HP WP Hk.
  destruct (proj1 (elem_of_Permutation _ _) Hk) as [P' HP'].
  assert (P' ⊆+ P) as Hsub by (rewrite HP'; by apply submseteq_cons).
  pose proof (valid_submseteq _ _ HP Hsub) as HV'.
  pose proof (within_submseteq _ _ _ _ WP Hsub) as WP'.
  assert (∀ a b, (a, b) ∈ P' →
            lo < a ∧ a < b ∧ b < hi ∧ a ≠ k ∧ b ≠ k ∧ ¬ (a < k ∧ k < b))
    as Hother.
  { intros a b Hp.
    assert ((a, b) ∈ P) as HpP by (by eapply elem_of_submseteq).
    pose proof (valid_within_pair _ _ _ _ _ HP WP HpP).
    pose proof (valid_within_pair _ _ _ _ _ HP WP Hk).
    assert ((lo, k) ≠ (a, b)) as Hne.
    { intros [= <- <-]. pose proof (vps_set _ _ HP) as HN. rewrite HP' in HN.
      by apply list.NoDup_cons in HN as [? _]. }
    pose proof (vps_disjoint _ _ HP _ _ Hk HpP Hne) as Hd.
    pose proof (vps_nocross _ _ HP _ _ Hk HpP) as Hc.
    unfold share_position, crossing in *; simpl in *. lia. }
  exists (filter (λ p, p.1 < k) P'), (filter (λ p, ¬ p.1 < k) P').
  split_and!.
  - apply (valid_submseteq P'); [done |]. apply sublist_submseteq, sublist_filter.
  - intros [a b] [Ha Hp]%list_elem_of_filter. specialize (Hother _ _ Hp).
    simpl in *. lia.
  - apply (valid_submseteq P'); [done |]. apply sublist_submseteq, sublist_filter.
  - intros [a b] [Ha Hp]%list_elem_of_filter. specialize (Hother _ _ Hp).
    simpl in *. lia.
  - rewrite HP'. simpl. rewrite <- length_app.
    by rewrite filter_app_complement.
Qed.

Lemma optimum_upto_pair lo hi k m m1 m2 x y :
  optimum_upto s lo hi k m → lo < k < hi →
  s !! lo = Some x → s !! k = Some y → complementary x y →
  optimum s (S lo) k m1 → optimum s (S k) hi m2 →
  optimum_upto s lo hi (S k) (m `max` (1 + m1 + m2)).
Proof.
  intros [Ha Hm] Hk Hx Hy Hxy [(P1 & HP1 & WP1 & <-) Hm1] [(P2 & HP2 & WP2 & <-) Hm2].
  split.
  - destruct (Nat.max_spec m (1 + length P1 + length P2)) as [[_ ->]|[_ ->]];
      [| done].
    exists (((lo, k) :: P1) ++ P2). split_and!.
    + apply (valid_app lo (S k) hi); [| done | | done].
      { apply (valid_cons lo k P1 x y); (done || lia). }
      intros p [->|Hp]%elem_of_cons; [simpl; lia |].
      specialize (WP1 _ Hp). lia.
    + intros p [->|[Hp|Hp]%elem_of_app]%elem_of_cons; [simpl; lia | |].
      * specialize (WP1 _ Hp). lia.
      * specialize (WP2 _ Hp). lia.
    + simpl. rewrite length_app. lia.
  - intros Q HQ WQ Hlo.
    destruct (decide ((lo, k) ∈ Q)) as [Hin|Hnin].
    + destruct (valid_split _ _ _ _ HQ WQ Hin) as (Q1 & Q2 & ? & ? & ? & ? & ->).
      assert (length Q1 ≤ length P1) by auto.
      assert (length Q2 ≤ length P2) by auto. lia.
    + assert (length Q ≤ m); [| lia]. apply Hm; [done | done |].
      intros k' Hp. specialize (Hlo _ Hp).
      destruct (decide (k' = k)) as [->|]; [done | lia].
Qed.

Lemma optimum_upto_end lo hi m : optimum_upto s lo hi hi m → optimum s lo hi m.
Proof.
  intros [Ha Hm]. split; [done |].
  intros Q HQ WQ. apply Hm; [done | done |].
  intros k' Hp. pose proof (valid_within_pair _ _ _ _ _ HQ WQ Hp). lia.
Qed.

Lemma optimum_whole m : optimum s 0 (length s) m ↔ max_pairing_count s m.
Proof.
  split.
  - intros [(P & HP & _ & <-) Hm]. split; [by exists P |].
    intros Q HQ. apply Hm; [done | by apply valid_within].
  - intros [(P & HP & <-) Hm]. split; [| by auto].
    exists P. split_and!; [done | by apply valid_within | done].
Qed.

(** Each pairing takes two positions of its own. *)
Lemma valid_length P : valid_pairing_set s P → 2 * length P ≤ length s.
Proof.
  intros HP.
  assert (NoDup (P.*1 ++ P.*2)) as HN.
  { apply list.NoDup_app. split_and!.
    - apply NoDup_fmap_2_strong; [| apply HP].
      intros p q Hp Hq Heq. destruct (decide (p = q)) as [|Hne]; [done |].
      destruct (vps_disjoint _ _ HP _ _ Hp Hq Hne). unfold share_position. auto.
    - intros i ([i1 j1] & -> & Hp)%list_elem_of_fmap
               ([i2 j2] & Heq & Hq)%list_elem_of_fmap.
      simpl in Heq. subst i1.
      destruct (decide ((j2, j1) = (i2, j2))) as [Heq|Hne].
      + injection Heq as -> ->. destruct (vps_pair _ _ HP _ _ Hp). lia.
      + destruct (vps_disjoint _ _ HP _ _ Hp Hq Hne). unfold share_position. auto.
    - apply NoDup_fmap_2_strong; [| apply HP].
      intros p q Hp Hq Heq. destruct (decide (p = q)) as [|Hne]; [done |].
      destruct (vps_disjoint _ _ HP _ _ Hp Hq Hne). unfold share_position. auto. }
  assert (P.*1 ++ P.*2 ⊆+ seq 0 (length s)) as Hsub.
  { apply NoDup_submseteq; [done |].
    intros i Hi. apply elem_of_seq.
    pose proof (valid_within _ HP) as WP.
    apply elem_of_app in Hi as [Hi|Hi];
      apply list_elem_of_fmap in Hi as ([a b] & -> & Hp);
      pose proof (valid_within_pair _ _ _ _ _ HP WP Hp); simpl; lia. }
  apply submseteq_length in Hsub.
  rewrite length_app, !length_fmap, length_seq in Hsub. lia.
Qed.

End pairing_sets.

(** ** Running the primitives *)

Lemma py_getitem_nat {A} (xs : list A) (i : nat) x :
  xs !! i = Some x → py_getitem xs (Z.of_nat i) = Ok x.
Proof.
  intros Hx. pose proof (lookup_lt_Some _ _ _ Hx) as Hlt.
  unfold py_getitem, py_norm_index.
  destruct (Z.ltb_spec (Z.of_nat i) 0); [lia |].
  destruct (Z.leb_spec 0 (Z.of_nat i)); [| lia].
  destruct (Z.ltb_spec (Z.of_nat i) (Z.of_nat (length xs))); [| lia].
  simpl. by rewrite Nat2Z.id, Hx.
Qed.

Lemma py_setitem_nat {A} (xs : list A) (i : nat) v :
  (i < length xs)%nat → py_setitem xs (Z.of_nat i) v = Ok (<[i := v]> xs).
Proof.
  intros Hlt. unfold py_setitem, py_norm_index.
  destruct (Z.ltb_spec (Z.of_nat i) 0); [lia |].
  destruct (Z.leb_spec 0 (Z.of_nat i)); [| lia].
  destruct (Z.ltb_spec (Z.of_nat i) (Z.of_nat (length xs))); [| lia].
  simpl. by rewrite Nat2Z.id.
Qed.

Lemma py_getitem_nil {A} (i : Z) : py_getitem (@nil A) i = Raise IndexError.
Proof.
  unfold py_getitem. simpl length.
  destruct (_ && _) eqn:E; [| done].
  apply andb_true_iff in E as [E1%Z.leb_le E2%Z.ltb_lt].
  unfold py_norm_index in *. destruct (Z.ltb_spec i 0); lia.
Qed.

Lemma bind_Ok {A B} (m : M A) (f : A → M B) h a h' :
  m h = (Ok a, h') → bind m f h = f a h'.
Proof. intros Hm. unfold bind. by rewrite Hm. Qed.

(** Runs the first computation of a [bind] with the equation [H]. *)
Tactic Notation "run_with" uconstr(H) := rewrite (bind_Ok _ _ _ _ _ H).

Lemma row_refs_lookup base n (i : nat) :
  (i < n)%nat → row_refs base n !! i = Some (base + i)%nat.
Proof. intros. by apply lookup_seq_lt. Qed.

Section store.
Variable h0 : heap.

Lemma lift_getitem_run {A} (xs : list A) (i : nat) x (h : heap) :
  xs !! i = Some x → lift (py_getitem xs (Z.of_nat i)) h = (Ok x, h).
Proof. intros Hx. unfold lift. by rewrite (py_getitem_nat _ _ _ Hx). Qed.

Lemma load_run (t : list (list Z)) (i : nat) row :
  t !! i = Some row →
  load (length h0 + i)%nat (h0 ++ t) = (Ok row, h0 ++ t).
Proof.
  intros Hrow. unfold load.
  by rewrite lookup_app_r, Nat.add_sub', Hrow by lia.
Qed.

Lemma store_run (t : list (list Z)) (i : nat) row :
  (i < length t)%nat →
  store (length h0 + i)%nat row (h0 ++ t) = (Ok tt, h0 ++ <[i := row]> t).
Proof.
  intros [old Hold]%lookup_lt_is_Some. unfold store.
  rewrite lookup_app_r, Nat.add_sub', Hold by lia.
  by rewrite insert_app_r.
Qed.

Lemma getitem2_run t (i j : nat) v :
  cell t i j = Some v →
  getitem2 (row_refs (length h0) (length t)) (Z.of_nat i) (Z.of_nat j)
    (h0 ++ t) = (Ok v, h0 ++ t).
Proof.
  unfold cell. intros Hc.
  destruct (t !! i) as [row|] eqn:Hrow; [simpl in Hc | done].
  pose proof (lookup_lt_Some _ _ _ Hrow) as Hlt.
  unfold getitem2.
  run_with (lift_getitem_run _ i _ _ (row_refs_lookup _ _ _ Hlt)).
  run_with (load_run _ _ _ Hrow).
  by apply lift_getitem_run.
Qed.

Lemma setitem2_run t (i j : nat) row v :
  t !! i = Some row → (j < length row)%nat →
  setitem2 (row_refs (length h0) (length t)) (Z.of_nat i) (Z.of_nat j) v
    (h0 ++ t) = (Ok tt, h0 ++ <[i := <[j := v]> row]> t).
Proof.
  intros Hrow Hj.
  pose proof (lookup_lt_Some _ _ _ Hrow) as Hlt.
  unfold setitem2.
  run_with (lift_getitem_run _ i _ _ (row_refs_lookup _ _ _ Hlt)).
  run_with (load_run _ _ _ Hrow).
  erewrite bind_Ok; [| unfold lift; by rewrite (py_setitem_nat _ _ _ Hj)].
  by apply store_run.
Qed.

(** The list comprehension allocates one row per index, behind the
    objects the store holds already. *)
Lemma comprehension_new_list a (k : nat) v h :
  comprehension (seqZ a (Z.of_nat k)) (λ _, new_list v) h
  = (Ok (row_refs (length h) k), h ++ replicate k v).
Proof.
  revert a h. induction k as [|k IH]; intros a h.
  - simpl. unfold ret. by rewrite app_nil_r.
  - rewrite seqZ_cons by lia. simpl.
    erewrite bind_Ok; [| reflexivity].
    replace (Z.pred (Z.of_nat (S k))) with (Z.of_nat k) by lia.
    erewrite bind_Ok; [| apply IH].
    unfold ret. rewrite length_app. simpl.
    rewrite <- app_assoc. simpl.
    by replace (length h + 1)%nat with (S (length h)) by lia.
Qed.

Lemma new_table_run (n : nat) :
  new_table (Z.of_nat n) h0
  = (Ok (row_refs (length h0) n), h0 ++ replicate n (replicate n 0)).
Proof.
  unfold new_table, range, py_repeat_zero.
  rewrite Z.sub_0_r, Nat2Z.id. apply comprehension_new_list.
Qed.

(** *** Rules for the total-correctness triples *)

Lemma triple_ret {A} (P : list (list Z) → Prop) (a : A) :
  triple h0 P (ret a) (λ _, P).
Proof. intros t Ht. by exists a, t. Qed.

Lemma triple_bind {A B} P Q R (m : M A) (f : A → M B) :
  triple h0 P m Q → (∀ a, triple h0 (Q a) (f a) R) →
  triple h0 P (bind m f) R.
Proof.
  intros Hm Hf t Ht. destruct (Hm t Ht) as (a & t1 & Hrun & HQ).
  destruct (Hf a t1 HQ) as (b & t2 & Hrun' & HR).
  exists b, t2. by run_with Hrun.
Qed.

Lemma triple_post {A} P (Q Q' : A → list (list Z) → Prop) (m : M A) :
  (∀ a t, Q a t → Q' a t) → triple h0 P m Q → triple h0 P m Q'.
Proof.
  intros HQ Hm t Ht. destruct (Hm t Ht) as (a & t' & ? & ?). eauto.
Qed.

(** The rule of [for x in range(a, b)], with an invariant indexed by the
    next value of [x]. *)
Lemma triple_for_range (I : Z → list (list Z) → Prop) a b body :
  a ≤ b →
  (∀ k, a ≤ k < b → triple h0 (I k) (body k) (λ _, I (k + 1))) →
  triple h0 (I a) (for_ (range a b) body) (λ _, I b).
Proof.
  unfold range. intros Hab Hbody.
  remember (Z.to_nat (b - a)) as d eqn:Hd.
  revert a Hab Hbody Hd. induction d as [|d IH]; intros a Hab Hbody Hd.
  - assert (b = a) as -> by lia. rewrite Z.sub_diag. simpl.
    apply triple_ret.
  - rewrite seqZ_cons by lia. simpl.
    eapply triple_bind; [apply Hbody; lia |].
    intros ?. cbv beta. replace (Z.pred (b - a)) with (b - Z.succ a) by lia.
    replace (a + 1) with (Z.succ a) by lia.
    apply IH; [lia | | lia].
    intros k Hk. apply Hbody. lia.
Qed.

Lemma triple_for_nat (I : nat → list (list Z) → Prop) (a b : nat) body :
  (a ≤ b)%nat →
  (∀ k : nat, (a ≤ k < b)%nat →
     triple h0 (I k) (body (Z.of_nat k)) (λ _, I (S k))) →
  triple h0 (I a) (for_ (range (Z.of_nat a) (Z.of_nat b)) body) (λ _, I b).
Proof.
  intros Hab Hbody.
  pose proof (triple_for_range (λ k, I (Z.to_nat k))
                (Z.of_nat a) (Z.of_nat b) body) as Hfor.
  cbv beta in Hfor. rewrite !Nat2Z.id in Hfor. apply Hfor; [lia |].
  intros k Hk. replace (Z.to_nat (k + 1)) with (S (Z.to_nat k)) by lia.
  rewrite <- (Z2Nat.id k) at 2 by lia. apply Hbody. lia.
Qed.

End store.

(** ** Updating one cell of the table *)

Section table.
Local Open Scope nat_scope.
Implicit Types t : list (list Z).

Lemma square_cell n t i j :
  square n t → i < n → j < n →
  ∃ row, t !! i = Some row ∧ j < length row.
Proof.
  intros [Hlen Hrows] Hi Hj.
  destruct (lookup_lt_is_Some_2 t i) as [row Hrow]; [lia |].
  exists row. split; [done |]. rewrite (Hrows _ _ Hrow). lia.
Qed.

Lemma square_insert n t i j row v :
  square n t → t !! i = Some row → square n (<[i := <[j := v]> row]> t).
Proof.
  intros [Hlen Hrows] Hrow. split; [by rewrite length_insert |].
  intros a r Hr. destruct (decide (a = i)) as [->|Hne].
  - rewrite list_lookup_insert_eq in Hr by (by eapply lookup_lt_Some).
    injection Hr as <-. rewrite length_insert. eauto.
  - rewrite list_lookup_insert_ne in Hr by done. eauto.
Qed.

Lemma cell_insert_eq t i j row v :
  t !! i = Some row → j < length row →
  cell (<[i := <[j := v]> row]> t) i j = Some v.
Proof.
  intros Hrow Hj. unfold cell.
  rewrite list_lookup_insert_eq by (by eapply lookup_lt_Some). simpl.
  by rewrite list_lookup_insert_eq.
Qed.

Lemma cell_insert_ne t i j row v a b :
  t !! i = Some row → (a, b) ≠ (i, j) →
  cell (<[i := <[j := v]> row]> t) a b = cell t a b.
Proof.
  intros Hrow Hne. unfold cell. destruct (decide (a = i)) as [->|Hai].
  - rewrite list_lookup_insert_eq by (by eapply lookup_lt_Some).
    rewrite Hrow. simpl. apply list_lookup_insert_ne. congruence.
  - by rewrite list_lookup_insert_ne.
Qed.

(** Writing the cell that is being computed keeps the finished ones. *)
Lemma filled_insert s l i t row v :
  filled s l i t → t !! i = Some row →
  filled s l i (<[i := <[i + l - 1 := v]> row]> t).
Proof.
  intros [Hsq Hdone] Hrow. split; [by apply square_insert |].
  intros a b Hab Hlen. destruct (Hdone a b Hab Hlen) as (m & Hm & Hopt).
  exists m. split; [| done].
  rewrite cell_insert_ne; [done | done |]. intros [= -> ->]. lia.
Qed.

Lemma filled_initial s :
  filled s 2 0 (replicate (length s) (replicate (length s) 0%Z)).
Proof.
  split.
  - split; [by rewrite length_replicate |].
    intros i row [-> _]%lookup_replicate. by rewrite length_replicate.
  - intros a b Hab Hlen. assert (b = a) as -> by lia.
    exists 0. split; [| apply optimum_small; lia].
    unfold cell. rewrite lookup_replicate_2 by lia. simpl.
    by rewrite lookup_replicate_2 by lia.
Qed.

(** After the last start position the next length begins. *)
Lemma filled_next_length s l t :
  filled s l (length s - l + 1) t → filled s (S l) 0 t.
Proof.
  intros [Hsq Hdone]. split; [done |].
  intros a b Hab Hlen. apply Hdone; lia.
Qed.

Lemma filling_start s l i t m :
  filled s l i t →
  cell t i (i + l - 1) = Some (Z.of_nat m) → optimum s (S i) (i + l) m →
  filling s l i (S i) t.
Proof.
  intros Hf Hc Hopt. split; [done |]. exists m. split; [done |].
  by apply optimum_upto_start.
Qed.

Lemma filling_end s l i t :
  2 ≤ l → i + l ≤ length s → filling s l i (i + l) t → filled s l (S i) t.
Proof.
  intros Hl Hi [[Hsq Hdone] (m & Hc & Hopt)]. split; [done |].
  intros a b Hab Hlen.
  destruct (decide (a = i ∧ b = i + l - 1)) as [[-> ->]|Hne].
  - exists m. split; [done |].
    replace (S (i + l - 1)) with (i + l) by lia. by apply optimum_upto_end.
  - apply Hdone; lia.
Qed.

End table.

(** ** The loops *)

Section loops.
Variable s : list ascii.
Variable h0 : heap.

(** Reading [dp[a][b]] of a table of the right shape. *)
Lemma getitem2_filled t (a b : nat) v :
  length t = length s → cell t a b = Some v →
  getitem2 (row_refs (length h0) (length s)) (Z.of_nat a) (Z.of_nat b)
    (h0 ++ t) = (Ok v, h0 ++ t).
Proof. intros <-. apply getitem2_run. Qed.

Lemma setitem2_filled t (a b : nat) row v :
  length t = length s → t !! a = Some row → (b < length row)%nat →
  setitem2 (row_refs (length h0) (length s)) (Z.of_nat a) (Z.of_nat b) v
    (h0 ++ t) = (Ok tt, h0 ++ <[a := <[b := v]> row]> t).
Proof. intros <-. apply setitem2_run. Qed.

(** [score += dp[k + 1][j]], guarded by [k < j]. *)
Lemma read_behind (l i k : nat) t :
  filled s l i t → (i < k < i + l)%nat → (i + l ≤ length s)%nat →
  ∃ m2, optimum s (S k) (i + l) m2 ∧
    (if Z.of_nat k <? Z.of_nat (i + l - 1)
     then v <- getitem2 (row_refs (length h0) (length s))
                 (Z.of_nat k + 1) (Z.of_nat (i + l - 1)) ;;
          ret (1 + v)
     else ret 1) (h0 ++ t) = (Ok (1 + Z.of_nat m2), h0 ++ t).
Proof.
  intros [[Hlen _] Hdone] Hk Hi.
  destruct (Z.ltb_spec (Z.of_nat k) (Z.of_nat (i + l - 1))) as [Hlt|Hge].
  - destruct (Hdone (S k) (i + l - 1)%nat) as (m2 & Hc & Hopt); [lia | lia |].
    exists m2. replace (S (i + l - 1)) with (i + l)%nat in Hopt by lia.
    split; [done |].
    replace (Z.of_nat k + 1) with (Z.of_nat (S k)) by lia.
    by run_with (getitem2_filled _ _ _ _ Hlen Hc).
  - exists 0%nat. split; [apply optimum_small; lia |].
    unfold ret. do 2 f_equal.
Qed.

(** [score += dp[i + 1][k - 1]], guarded by [i + 1 < k]. *)
Lemma read_between (l i k : nat) t score :
  filled s l i t → (i < k < i + l)%nat → (i + l ≤ length s)%nat →
  ∃ m1, optimum s (S i) k m1 ∧
    (if Z.of_nat i + 1 <? Z.of_nat k
     then v <- getitem2 (row_refs (length h0) (length s))
                 (Z.of_nat i + 1) (Z.of_nat k - 1) ;;
          ret (score + v)
     else ret score) (h0 ++ t) = (Ok (score + Z.of_nat m1), h0 ++ t).
Proof.
  intros [[Hlen _] Hdone] Hk Hi.
  destruct (Z.ltb_spec (Z.of_nat i + 1) (Z.of_nat k)) as [Hlt|Hge].
  - destruct (Hdone (S i) (k - 1)%nat) as (m1 & Hc & Hopt); [lia | lia |].
    exists m1. replace (S (k - 1)) with k in Hopt by lia.
    split; [done |].
    replace (Z.of_nat i + 1) with (Z.of_nat (S i)) by lia.
    replace (Z.of_nat k - 1) with (Z.of_nat (k - 1)) by lia.
    by run_with (getitem2_filled _ _ _ _ Hlen Hc).
  - exists 0%nat. split; [apply optimum_small; lia |].
    unfold ret. do 2 f_equal. lia.
Qed.

(** One round of the innermost loop. *)
Lemma try_pair_triple (l i k : nat) :
  (i < k < i + l)%nat → (i + l ≤ length s)%nat →
  triple h0 (filling s l i k)
    (try_pair s (row_refs (length h0) (length s))
       (Z.of_nat i) (Z.of_nat (i + l - 1)) (Z.of_nat k))
    (λ _, filling s l i (S k)).
Proof.
  intros Hk Hi t [Hf (m & Hc & Hopt)].
  destruct (lookup_lt_is_Some_2 s i) as [x Hx]; [lia |].
  destruct (lookup_lt_is_Some_2 s k) as [y Hy]; [lia |].
  unfold try_pair.
  run_with (lift_getitem_run _ _ _ _ Hx).
  run_with (lift_getitem_run _ _ _ _ Hy).
  destruct (can_pair x y) eqn:Hxy.
  - apply can_pair_complementary in Hxy.
    destruct (read_behind l i k t Hf Hk Hi) as (m2 & Hm2 & Hrun2).
    destruct (read_between l i k t (1 + Z.of_nat m2) Hf Hk Hi)
      as (m1 & Hm1 & Hrun1).
    run_with Hrun2. run_with Hrun1.
    pose proof Hf as [[Hlen Hrows] _].
    run_with (getitem2_filled _ _ _ _ Hlen Hc).
    destruct (square_cell (length s) t i (i + l - 1)) as (row & Hrow & Hj);
      [by split | lia | lia |].
    rewrite (setitem2_filled _ _ _ _ _ Hlen Hrow Hj).
    eexists tt, _. split; [done |]. split; [by apply filled_insert |].
    exists (m `max` (1 + m1 + m2))%nat. split.
    + rewrite (cell_insert_eq _ _ _ _ _ Hrow Hj). f_equal. lia.
    + by apply (optimum_upto_pair s i (i + l) k m m1 m2 x y).
  - exists tt, t. split; [done |]. split; [done |].
    exists m. split; [done |]. apply optimum_upto_skip; [done |].
    intros x' y' Hx' Hy' Hc'. apply can_pair_complementary in Hc'.
    congruence.
Qed.

(** One round of the loop over the start positions. *)
Lemma fill_cell_triple (l i : nat) :
  (2 ≤ l)%nat → (i + l ≤ length s)%nat →
  triple h0 (filled s l i)
    (fill_cell s (row_refs (length h0) (length s)) (Z.of_nat l) (Z.of_nat i))
    (λ _, filled s l (S i)).
Proof.
  intros Hl Hi. unfold fill_cell. cbv zeta.
  replace (Z.of_nat i + Z.of_nat l - 1) with (Z.of_nat (i + l - 1)) by lia.
  replace (Z.of_nat (i + l - 1) + 1) with (Z.of_nat (i + l)) by lia.
  replace (Z.of_nat i + 1) with (Z.of_nat (S i)) by lia.
  apply triple_bind with
    (Q := λ v t, filled s l i t ∧
                 ∃ m, v = Z.of_nat m ∧ optimum s (S i) (i + l) m).
  { intros t Hf. pose proof Hf as [[Hlen Hrows] Hdone].
    destruct (Hdone (S i) (i + l - 1)%nat) as (m & Hc & Hopt); [lia | lia |].
    replace (S (i + l - 1)) with (i + l)%nat in Hopt by lia.
    exists (Z.of_nat m), t. split; [by apply getitem2_filled | by eauto]. }
  intros v. apply triple_bind with (Q := λ _, filling s l i (S i)).
  - intros t [Hf (m & -> & Hopt)]. pose proof Hf as [[Hlen Hrows] Hdone].
    destruct (square_cell (length s) t i (i + l - 1)) as (row & Hrow & Hj);
      [by split | lia | lia |].
    rewrite (setitem2_filled _ _ _ _ _ Hlen Hrow Hj).
    eexists tt, _. split; [done |].
    apply filling_start with (m := m);
      [by apply filled_insert | by apply cell_insert_eq | done].
  - intros _.
    apply triple_post with (Q := λ _, filling s l i (i + l)).
    { intros _ t. by apply filling_end. }
    apply (triple_for_nat h0 (filling s l i)); [lia |].
    intros k Hk. apply try_pair_triple; lia.
Qed.

(** The two outer loops. *)
Lemma fill_table_triple :
  (1 ≤ length s)%nat →
  triple h0 (filled s 2 0)
    (fill_table s (row_refs (length h0) (length s)) (Z.of_nat (length s)))
    (λ _, filled s (S (length s)) 0).
Proof.
  intros Hn. unfold fill_table.
  replace (Z.of_nat (length s) + 1) with (Z.of_nat (S (length s))) by lia.
  apply (triple_for_nat h0 (λ l, filled s l 0) 2); [lia |].
  intros l Hl.
  apply triple_post with (Q := λ _, filled s l (length s - l + 1)).
  { intros _ t. apply filled_next_length. }
  replace (Z.of_nat (length s) - Z.of_nat l + 1)
    with (Z.of_nat (length s - l + 1)) by lia.
  apply (triple_for_nat h0 (filled s l) 0); [lia |].
  intros i Hi. apply fill_cell_triple; lia.
Qed.

End loops.

(** ** The whole function *)

Lemma list_ascii_of_string_app (a b : string) :
  list_ascii_of_string (a ++ b)
  = list_ascii_of_string a ++ list_ascii_of_string b.
Proof. induction a as [|c a IH]; simpl; [done | by rewrite IH]. Qed.

Lemma list_ascii_nonempty (sequence : string) :
  sequence ≠ ""%string → (1 ≤ length (list_ascii_of_string sequence))%nat.
Proof. destruct sequence; [done | simpl; lia]. Qed.

Lemma max_pairing_count_unique s m m' :
  max_pairing_count s m → max_pairing_count s m' → m = m'.
Proof.
  intros H H'. apply optimum_whole in H, H'. by eapply optimum_unique.
Qed.

(** On a sequence that is not empty the call raises nothing, returns the
    maximum cardinality of a valid pairing set, and leaves the store it was
    started in as it was, followed by the rows of its table. *)
Lemma maxRNAFoldingScore_run (sequence : string) (h0 : heap) :
  sequence ≠ ""%string →
  ∃ m t, maxRNAFoldingScore sequence h0 = (Ok (Z.of_nat m), h0 ++ t) ∧
         max_pairing_count (list_ascii_of_string sequence) m.
Proof.
  intros Hn%list_ascii_nonempty. unfold maxRNAFoldingScore. cbv zeta.
  set (s := list_ascii_of_string sequence) in *.
  run_with (new_table_run h0 (length s)).
  destruct (fill_table_triple s h0 Hn _ (filled_initial s))
    as (u & t & Hrun & [[Hlen Hrows] Hdone]).
  run_with Hrun.
  destruct (Hdone 0 (length s - 1))%nat as (m & Hc & Hopt); [lia | lia |].
  exists m, t. split.
  - replace (Z.of_nat (length s) - 1) with (Z.of_nat (length s - 1)) by lia.
    by apply (getitem2_filled s h0 t 0).
  - apply optimum_whole. by replace (length s) with (S (length s - 1)) by lia.
Qed.

(** [dp[i][j]] raises when [dp] has no row. *)
Lemma getitem2_nil (i j : Z) (h : heap) :
  getitem2 [] i j h = (Raise IndexError, h).
Proof. unfold getitem2, bind, lift. by rewrite py_getitem_nil. Qed.

(** On the empty sequence the table has no row, no loop runs and the
    [return] statement raises at [dp[0]]. *)
Lemma maxRNAFoldingScore_empty (h0 : heap) :
  maxRNAFoldingScore "" h0 = (Raise IndexError, h0).
Proof.
  unfold maxRNAFoldingScore. cbv zeta. simpl list_ascii_of_string.
  change (new_table (Z.of_nat (length []))) with (@ret (list loc) []).
  unfold bind at 1. unfold ret at 1.
  run_with (eq_refl : fill_table [] [] 0 h0 = (Ok tt, h0)).
  apply getitem2_nil.
Qed.

(** The outcome of a call does not depend on the store it is started in. *)
Lemma maxRNAFoldingScore_any_store (sequence : string) (h1 h2 : heap) :
  (maxRNAFoldingScore sequence h1).1 = (maxRNAFoldingScore sequence h2).1.
Proof.
  destruct (String.string_dec sequence "") as [->|Hne]; [done |].
  destruct (maxRNAFoldingScore_run sequence h1 Hne) as (m1 & t1 & -> & Hm1).
  destruct (maxRNAFoldingScore_run sequence h2 Hne) as (m2 & t2 & -> & Hm2).
  simpl. by rewrite (max_pairing_count_unique _ _ _ Hm1 Hm2).
Qed.

(** A call extends the store and changes nothing of what was in it. *)
Lemma maxRNAFoldingScore_frame (sequence : string) (h0 : heap) :
  ∃ t, (maxRNAFoldingScore sequence h0).2 = h0 ++ t.
Proof.
  destruct (String.string_dec sequence "") as [->|Hne].
  - exists []. by rewrite app_nil_r.
  - destruct (maxRNAFoldingScore_run sequence h0 Hne) as (m & t & -> & _).
    by exists t.
Qed.

Lemma maxRNAFoldingScore_call (sequence : string) (h0 : heap) :
  (maxRNAFoldingScore sequence h0).1 = call sequence.
Proof. apply maxRNAFoldingScore_any_store. Qed.

Lemma length_list_ascii (sequence : string) :
  length (list_ascii_of_string sequence) = String.length sequence.
Proof. induction sequence as [|c a IH]; simpl; [done | by rewrite IH]. Qed.

Lemma complementary_alphabet x y :
  complementary x y → in_alphabet x ∧ in_alphabet y.
Proof.
  unfold complementary, in_alphabet.
  intros [[-> ->]|[[-> ->]|[[-> ->]|[-> ->]]]]; tauto.
Qed.

Lemma valid_pairing_set_app s s' P :
  valid_pairing_set s P → valid_pairing_set (s ++ s') P.
Proof.
  intros [NP PP DP CP]. split; [done | | done | done].
  intros i j Hp. destruct (PP i j Hp) as (Hij & x & y & Hx & Hy & Hxy).
  split; [done |]. exists x, y. split_and!; [| | done]; by apply lookup_app_l_Some.
Qed.

(** ** Properties of [maxRNAFoldingScore] *)

(** The score of a sequence that is not empty, whatever its symbols are, is
    the maximum cardinality over all its valid pairing sets. *)
Theorem maxRNAFoldingScore_optimal (sequence : string) (h0 : heap) :
  sequence ≠ ""%string →
  ∃ m, (maxRNAFoldingScore sequence h0).1 = Ok (Z.of_nat m) ∧
       max_pairing_count (list_ascii_of_string sequence) m.
Proof.
  intros Hne. destruct (maxRNAFoldingScore_run sequence h0 Hne) as (m & t & -> & Hm).
  by exists m.
Qed.

(** C1 (maximum cardinality over all valid pairing sets), at the empty
    sequence: the only valid pairing set is the empty one, so the maximum
    is 0, and the call raises [IndexError] instead of returning it. *)
Theorem empty_sequence_optimum_not_returned :
  max_pairing_count (list_ascii_of_string "") 0 ∧
  ∀ h0, (maxRNAFoldingScore "" h0).1 = Raise IndexError.
Proof.
  split; [| done]. apply optimum_whole, optimum_small. simpl. lia.
Qed.

(** C2, as the code has it: a sequence with a symbol from outside the
    alphabet is not rejected.  The call raises nothing and returns the
    maximum cardinality of a valid pairing set, in which only symbols of
    the alphabet are paired; ["AXU"] returns 1. *)
Theorem foreign_symbol_scored (sequence : string) (h0 : heap) :
  has_foreign_symbol (list_ascii_of_string sequence) →
  (∃ m, (maxRNAFoldingScore sequence h0).1 = Ok (Z.of_nat m) ∧
        max_pairing_count (list_ascii_of_string sequence) m) ∧
  (∀ P i j x y, valid_pairing_set (list_ascii_of_string sequence) P →
     (i, j) ∈ P →
     list_ascii_of_string sequence !! i = Some x →
     list_ascii_of_string sequence !! j = Some y →
     in_alphabet x ∧ in_alphabet y) ∧
  (maxRNAFoldingScore "AXU" h0).1 = Ok 1.
Proof.
  intros (x & Hx & _). split_and!.
  - destruct (maxRNAFoldingScore_run sequence h0) as (m & t & -> & Hm).
    + intros ->. by apply elem_of_nil in Hx.
    + by exists m.
  - intros P i j a b HP Hp Ha Hb.
    destruct (vps_pair _ _ HP i j Hp) as (_ & a' & b' & Ha' & Hb' & Hab).
    rewrite Ha in Ha'. rewrite Hb in Hb'. injection Ha' as <-. injection Hb' as <-.
    by apply complementary_alphabet.
  - by rewrite maxRNAFoldingScore_call.
Qed.

Lemma foreign_symbol_scored_witness :
  has_foreign_symbol (list_ascii_of_string "AXU") ∧
  (maxRNAFoldingScore "AXU" []).1 = Ok 1.
Proof.
  assert (has_foreign_symbol (list_ascii_of_string "AXU")) as H.
  { exists "X"%char. split.
    - simpl. apply elem_of_cons. right. apply elem_of_cons. by left.
    - unfold in_alphabet. intros [?|[?|[?|?]]]; discriminate. }
  split; [exact H |].
  exact (proj2 (proj2 (foreign_symbol_scored "AXU" [] H))).
Defined.

(** C2 as the specification states it fails: ["AXU"] holds the symbol [X]
    and the call returns 1 instead of failing. *)
Lemma foreign_symbol_not_rejected :
  ¬ (∀ sequence : string,
       has_foreign_symbol (list_ascii_of_string sequence) →
       ∃ e, call sequence = Raise e).
Proof.
  intros Hclaim. destruct (Hclaim "AXU"%string) as [e He].
  - exists "X"%char. split.
    + simpl. apply elem_of_cons. right. apply elem_of_cons. by left.
    + unfold in_alphabet. intros [?|[?|[?|?]]]; discriminate.
  - vm_compute in He. discriminate He.
Qed.

(** A sequence of one symbol scores 0. *)
Theorem maxRNAFoldingScore_single_symbol (c : ascii) (h0 : heap) :
  (maxRNAFoldingScore (String c "") h0).1 = Ok 0.
Proof.
  destruct (maxRNAFoldingScore_run (String c "") h0) as (m & t & -> & Hm);
    [done |].
  destruct Hm as [(P & HP & <-) _]. apply valid_length in HP.
  simpl in *. do 2 f_equal. lia.
Qed.

(** C3 (sequences of length 0 or 1 score 0), at the empty sequence: the
    table has no row, [dp[0]] raises [IndexError], and the store is left as
    it was. *)
Theorem maxRNAFoldingScore_empty_raises (h0 : heap) :
  maxRNAFoldingScore "" h0 = (Raise IndexError, h0).
Proof. apply maxRNAFoldingScore_empty. Qed.

(** C4: the literal scenarios of the specification that are not empty. *)
Theorem literal_scenarios (h0 : heap) :
  (maxRNAFoldingScore "AC" h0).1 = Ok 0 ∧
  (maxRNAFoldingScore "AUUGC" h0).1 = Ok 2 ∧
  (maxRNAFoldingScore "AAUU" h0).1 = Ok 2 ∧
  (maxRNAFoldingScore "AUGCAU" h0).1 = Ok 3 ∧
  (maxRNAFoldingScore "GGGGCCCC" h0).1 = Ok 4 ∧
  (maxRNAFoldingScore "AUGU" h0).1 = Ok 1 ∧
  (maxRNAFoldingScore "GCAUGCAU" h0).1 = Ok 4.
Proof. rewrite !maxRNAFoldingScore_call. vm_compute. tauto. Qed.

(** C5: ["GCAU"] scores 2, and the pairings G-C at (0, 1) and A-U at (2, 3)
    form a valid pairing set: they share no position and do not cross. *)
Theorem GCAU_scores_two (h0 : heap) :
  (maxRNAFoldingScore "GCAU" h0).1 = Ok 2 ∧
  valid_pairing_set (list_ascii_of_string "GCAU") [(0, 1); (2, 3)]%nat.
Proof.
  split; [by rewrite maxRNAFoldingScore_call |].
  change [(0, 1); (2, 3)]%nat with ([(0, 1)] ++ [(2, 3)])%nat.
  apply (valid_app _ 0 2 4).
  - apply (valid_cons _ 0 1 [] "G" "C")%nat;
      [apply valid_nil | apply within_nil | lia | done | done |].
    unfold complementary. tauto.
  - apply (valid_cons _ 2 3 [] "A" "U")%nat;
      [apply valid_nil | apply within_nil | lia | done | done |].
    unfold complementary. tauto.
  - intros p ->%list_elem_of_singleton. simpl. lia.
  - intros p ->%list_elem_of_singleton. simpl. lia.
Qed.

(** The score of a sequence of [n] symbols that is not empty lies between 0
    and floor(n/2): each pairing takes two positions of its own. *)
Theorem maxRNAFoldingScore_bound (sequence : string) (h0 : heap) :
  sequence ≠ ""%string →
  ∃ v, (maxRNAFoldingScore sequence h0).1 = Ok v ∧
       0 ≤ v ≤ Z.of_nat (String.length sequence) / 2.
Proof.
  intros Hne.
  destruct (maxRNAFoldingScore_run sequence h0 Hne)
    as (m & t & -> & [(P & HP & <-) _]).
  exists (Z.of_nat (length P)). split; [done |].
  apply valid_length in HP. rewrite length_list_ascii in HP.
  split; [lia |]. apply Z.div_le_lower_bound; lia.
Qed.

(** C6 (the score is between 0 and floor(n/2)), at the empty sequence:
    n is 0, the bound is 0, and the call raises [IndexError] instead of
    returning a score. *)
Theorem empty_sequence_no_score (h0 : heap) :
  Z.of_nat (String.length "") / 2 = 0 ∧
  (maxRNAFoldingScore "" h0).1 = Raise IndexError.
Proof. by split. Qed.

(** Appending a symbol to a sequence that is not empty does not lower the
    score: a valid pairing set of the sequence is one of the longer
    sequence. *)
Theorem maxRNAFoldingScore_append (sequence : string) (c : ascii) (h0 : heap) :
  sequence ≠ ""%string →
  ∃ v v', (maxRNAFoldingScore sequence h0).1 = Ok v ∧
          (maxRNAFoldingScore (sequence ++ String c "") h0).1 = Ok v' ∧
          v ≤ v'.
Proof.
  intros Hne.
  destruct (maxRNAFoldingScore_run sequence h0 Hne)
    as (m & t & -> & [(P & HP & <-) _]).
  destruct (maxRNAFoldingScore_run (sequence ++ String c "") h0)
    as (m' & t' & -> & [_ Hmax]).
  { by destruct sequence. }
  exists (Z.of_nat (length P)), (Z.of_nat m'). split_and!; [done | done |].
  rewrite list_ascii_of_string_app in Hmax.
  specialize (Hmax P (valid_pairing_set_app _ _ _ HP)). lia.
Qed.

(** C7 (appending a symbol never lowers the score), at the empty sequence:
    the call on the sequence raises [IndexError], so there is no score to
    compare the score 0 of the extended sequence with. *)
Theorem append_to_empty_sequence (h0 : heap) :
  (maxRNAFoldingScore "" h0).1 = Raise IndexError ∧
  (maxRNAFoldingScore ("" ++ "A") h0).1 = Ok 0.
Proof. split; [done |]. by rewrite maxRNAFoldingScore_call. Qed.

(** C8: the score depends on the order of the symbols.  ["AGUC"] and
    ["AUGC"] hold the same symbols; the first scores 1, the second 2. *)
Theorem permutation_sensitive :
  ∃ (s1 s2 : string) (v1 v2 : Z),
    list_ascii_of_string s1 ≡ₚ list_ascii_of_string s2 ∧
    Forall in_alphabet (list_ascii_of_string s1) ∧
    (∀ h0, (maxRNAFoldingScore s1 h0).1 = Ok v1) ∧
    (∀ h0, (maxRNAFoldingScore s2 h0).1 = Ok v2) ∧
    v1 < v2.
Proof.
  exists "AGUC"%string, "AUGC"%string, 1, 2. split_and!.
  - simpl. do 1 constructor. apply perm_swap.
  - simpl. unfold in_alphabet. repeat constructor; tauto.
  - intros h0. by rewrite maxRNAFoldingScore_call.
  - intros h0. by rewrite maxRNAFoldingScore_call.
  - lia.
Qed.

(** C9: the outcome of a call (the score or the exception) is the same in
    whatever store the call is started, so two calls on one sequence agree,
    also when the second is made in the store the first has left; and a
    call leaves every object that was in the store as it was: the store
    afterwards is the store before, followed by the rows the call allocated
    itself. *)
Theorem maxRNAFoldingScore_deterministic (sequence : string) (h1 h2 : heap) :
  (maxRNAFoldingScore sequence h1).1 = (maxRNAFoldingScore sequence h2).1 ∧
  (maxRNAFoldingScore sequence (maxRNAFoldingScore sequence h1).2).1
  = (maxRNAFoldingScore sequence h1).1 ∧
  ∃ t, (maxRNAFoldingScore sequence h1).2 = h1 ++ t.
Proof.
  split_and!; [apply maxRNAFoldingScore_any_store ..
              | apply maxRNAFoldingScore_frame].
Qed.

(** C10: on a string that is not empty, whatever its characters are, the
    call raises nothing and returns a score that is not negative;
    [can_pair] is false as soon as one of the two characters is outside
    the upper-case alphabet; ["AXU"] returns 1 and ["auau"] returns 0. *)
Theorem any_characters_scored (sequence : string) (h0 : heap) :
  sequence ≠ ""%string →
  (∃ v, (maxRNAFoldingScore sequence h0).1 = Ok v ∧ 0 ≤ v) ∧
  (∀ x y, ¬ in_alphabet x ∨ ¬ in_alphabet y → can_pair x y = false) ∧
  (maxRNAFoldingScore "AXU" h0).1 = Ok 1 ∧
  (maxRNAFoldingScore "auau" h0).1 = Ok 0.
Proof.
  intros Hne. split_and!.
  - destruct (maxRNAFoldingScore_run sequence h0 Hne) as (m & t & -> & _).
    exists (Z.of_nat m). split; [done | lia].
  - intros x y Hxy. destruct (can_pair x y) eqn:Hp; [| done].
    apply can_pair_complementary, complementary_alphabet in Hp. tauto.
  - by rewrite maxRNAFoldingScore_call.
  - by rewrite maxRNAFoldingScore_call.
Qed.

Lemma any_characters_scored_witness :
  "auau"%string ≠ ""%string ∧
  ∃ v, (maxRNAFoldingScore "auau" []).1 = Ok v ∧ 0 ≤ v.
Proof.
  assert ("auau"%string ≠ ""%string) as H by discriminate.
  split; [exact H |].
  exact (proj1 (any_characters_scored "auau" [] H)).
Defined.


(** ** Moving pairing sets between sequences *)

Section moving.
Local Open Scope nat_scope.

(** A pairing set stays valid under a map of its pairings to pairings of
    another sequence that keeps symbols complementary and creates neither a
    shared position nor a crossing. *)
Lemma valid_pairing_set_fmap (f : pairing → pairing) (s s' : list ascii) P :
  valid_pairing_set s P →
  (∀ i j, (i, j) ∈ P →
     (f (i, j)).1 < (f (i, j)).2 ∧
     ∃ x y, s' !! (f (i, j)).1 = Some x ∧ s' !! (f (i, j)).2 = Some y ∧
            complementary x y) →
  (∀ p q, p ∈ P → q ∈ P → share_position (f p) (f q) → share_position p q) →
  (∀ p q, p ∈ P → q ∈ P → crossing (f p) (f q) → crossing p q ∨ crossing q p) →
  valid_pairing_set s' (f <$> P).
Proof.
  intros [NP PP DP CP] Hpair Hshare Hcross.
  assert (∀ p q, p ∈ P → q ∈ P → f p = f q → p = q) as Hinj.
  { intros p q Hp Hq Heq. destruct (decide (p = q)) as [|Hne]; [done |].
    destruct (DP p q Hp Hq Hne). apply Hshare; [done | done |].
    left. by rewrite Heq. }
  split.
  - by apply NoDup_fmap_2_strong.
  - intros i j ([a b] & Heq & Hp)%list_elem_of_fmap.
    specialize (Hpair a b Hp). rewrite <- Heq in Hpair. exact Hpair.
  - intros p' q' (p & -> & Hp)%list_elem_of_fmap (q & -> & Hq)%list_elem_of_fmap
           Hne Hsh.
    apply (DP p q Hp Hq); [congruence | by apply Hshare].
  - intros p' q' (p & -> & Hp)%list_elem_of_fmap (q & -> & Hq)%list_elem_of_fmap
           Hcr.
    destruct (Hcross p q Hp Hq Hcr) as [H|H];
      [by apply (CP p q) | by apply (CP q p)].
Qed.

Lemma complementary_sym x y : complementary x y → complementary y x.
Proof. unfold complementary. tauto. Qed.

Variable s : list ascii.
Variables lo hi : nat.
Hypothesis Hlohi : lo ≤ hi ≤ length s.

Lemma lookup_slice (i : nat) x :
  take (hi - lo) (drop lo s) !! i = Some x ↔ s !! (lo + i) = Some x ∧ lo + i < hi.
Proof. rewrite lookup_take_Some, lookup_drop. intuition lia. Qed.

(** A pairing set of the slice [s[lo:hi]] is one of [s], [lo] positions
    further. *)
Lemma valid_shift_right Q :
  valid_pairing_set (take (hi - lo) (drop lo s)) Q →
  valid_pairing_set s (shift_right lo <$> Q) ∧
  within lo hi (shift_right lo <$> Q).
Proof.
  intros HQ. split.
  - apply (valid_pairing_set_fmap _ _ _ _ HQ).
    + intros i j Hp.
      destruct (vps_pair _ _ HQ i j Hp) as (Hij & x & y & Hx & Hy & Hxy).
      apply lookup_slice in Hx as [Hx _]. apply lookup_slice in Hy as [Hy _].
      unfold shift_right; simpl. split; [lia |]. exists x, y.
      rewrite (Nat.add_comm i), (Nat.add_comm j). done.
    + intros [i j] [a b] _ _. unfold share_position, shift_right; simpl. lia.
    + intros [i j] [a b] _ _. unfold crossing, shift_right; simpl. lia.
  - intros p' ([i j] & -> & Hp)%list_elem_of_fmap.
    destruct (vps_pair _ _ HQ i j Hp) as (Hij & x & y & Hx & Hy & Hxy).
    apply lookup_slice in Hy as [_ Hy]. unfold shift_right; simpl. lia.
Qed.

(** A pairing set of [s] within [lo, hi) is one of the slice [s[lo:hi]],
    [lo] positions back. *)
Lemma valid_shift_left P :
  valid_pairing_set s P → within lo hi P →
  valid_pairing_set (take (hi - lo) (drop lo s)) (shift_left lo <$> P).
Proof.
  intros HP WP.
  pose proof (λ i j, valid_within_pair _ _ _ _ i j HP WP) as BP.
  apply (valid_pairing_set_fmap _ _ _ _ HP).
  - intros i j Hp. specialize (BP _ _ Hp).
    destruct (vps_pair _ _ HP i j Hp) as (Hij & x & y & Hx & Hy & Hxy).
    unfold shift_left; simpl. split; [lia |]. exists x, y.
    rewrite !lookup_slice.
    replace (lo + (i - lo)) with i by lia. replace (lo + (j - lo)) with j by lia.
    split_and!; (done || lia).
  - intros [i j] [a b] Hp Hq. pose proof (BP _ _ Hp). pose proof (BP _ _ Hq).
    unfold share_position, shift_left; simpl. lia.
  - intros [i j] [a b] Hp Hq. pose proof (BP _ _ Hp). pose proof (BP _ _ Hq).
    unfold crossing, shift_left; simpl. lia.
Qed.

(** The best score of the range [lo, hi) of [s] is the maximum cardinality
    of a valid pairing set of the slice [s[lo:hi]]. *)
Lemma optimum_slice m :
  optimum s lo hi m ↔ max_pairing_count (take (hi - lo) (drop lo s)) m.
Proof.
  split.
  - intros [(P & HP & WP & <-) Hm]. split.
    + exists (shift_left lo <$> P). split; [by apply valid_shift_left |].
      by rewrite length_fmap.
    + intros Q HQ. destruct (valid_shift_right Q HQ) as [HV HW].
      specialize (Hm _ HV HW). by rewrite length_fmap in Hm.
  - intros [(Q & HQ & <-) Hm]. split.
    + destruct (valid_shift_right Q HQ) as [HV HW].
      exists (shift_right lo <$> Q). by rewrite length_fmap.
    + intros P HP WP. specialize (Hm _ (valid_shift_left P HP WP)).
      by rewrite length_fmap in Hm.
Qed.

End moving.

(** ** Slices, concatenation and reversal *)

Lemma list_ascii_of_substring (n m : nat) (sequence : string) :
  list_ascii_of_string (substring n m sequence)
  = take m (drop n (list_ascii_of_string sequence)).
Proof.
  revert n m. induction sequence as [|c a IH]; intros [|n] [|m]; simpl;
    rewrite ?IH, ?drop_nil, ?drop_0; done.
Qed.

Lemma list_ascii_of_py_slice (sequence : string) (lo hi : nat) :
  list_ascii_of_string (py_slice sequence lo hi)
  = take (hi - lo) (drop lo (list_ascii_of_string sequence)).
Proof. apply list_ascii_of_substring. Qed.

Lemma py_slice_nonempty (sequence : string) (lo hi : nat) :
  (lo < hi ≤ String.length sequence)%nat → py_slice sequence lo hi ≠ ""%string.
Proof.
  intros Hlohi Heq. apply (f_equal list_ascii_of_string) in Heq.
  rewrite list_ascii_of_py_slice in Heq. apply (f_equal length) in Heq.
  rewrite length_take, length_drop, length_list_ascii in Heq. simpl in Heq. lia.
Qed.

(** The call returns the maximum cardinality, whichever way it is known. *)
Lemma maxRNAFoldingScore_value (sequence : string) (m : nat) (h : heap) :
  sequence ≠ ""%string →
  max_pairing_count (list_ascii_of_string sequence) m →
  (maxRNAFoldingScore sequence h).1 = Ok (Z.of_nat m).
Proof.
  intros Hne Hm.
  destruct (maxRNAFoldingScore_run sequence h Hne) as (m' & t & -> & Hm').
  simpl. by rewrite (max_pairing_count_unique _ _ _ Hm Hm').
Qed.

(** The table a call leaves behind. *)
Lemma maxRNAFoldingScore_table (sequence : string) (h0 : heap) :
  sequence ≠ ""%string →
  ∃ t, (maxRNAFoldingScore sequence h0).2 = h0 ++ t ∧
       filled (list_ascii_of_string sequence)
         (S (length (list_ascii_of_string sequence))) 0 t.
Proof.
  intros Hn%list_ascii_nonempty. unfold maxRNAFoldingScore. cbv zeta.
  set (s := list_ascii_of_string sequence) in *.
  run_with (new_table_run h0 (length s)).
  destruct (fill_table_triple s h0 Hn _ (filled_initial s))
    as (u & t & Hrun & Hf).
  run_with Hrun. exists t. split; [| done].
  pose proof Hf as [[Hlen Hrows] Hdone].
  destruct (Hdone 0 (length s - 1))%nat as (m & Hc & Hopt); [lia | lia |].
  replace (Z.of_nat (length s) - 1) with (Z.of_nat (length s - 1)) by lia.
  pose proof (getitem2_filled s h0 t 0 _ _ Hlen Hc) as Hget.
  change (Z.of_nat 0) with 0 in Hget. by rewrite Hget.
Qed.

Section mirror.
Local Open Scope nat_scope.

Lemma valid_mirror (s : list ascii) P :
  valid_pairing_set s P →
  valid_pairing_set (reverse s) (mirror (length s) <$> P).
Proof.
  intros HP.
  pose proof (λ i j, valid_within_pair _ _ _ _ i j HP (valid_within _ _ HP))
    as BP.
  apply (valid_pairing_set_fmap _ _ _ _ HP).
  - intros i j Hp. specialize (BP _ _ Hp).
    destruct (vps_pair _ _ HP i j Hp) as (Hij & x & y & Hx & Hy & Hxy).
    unfold mirror; simpl. split; [lia |]. exists y, x.
    rewrite !reverse_lookup by lia.
    replace (length s - S (length s - 1 - j)) with j by lia.
    replace (length s - S (length s - 1 - i)) with i by lia.
    split_and!; [done | done | by apply complementary_sym].
  - intros [i j] [a b] Hp Hq. pose proof (BP _ _ Hp). pose proof (BP _ _ Hq).
    unfold share_position, mirror; simpl. lia.
  - intros [i j] [a b] Hp Hq. pose proof (BP _ _ Hp). pose proof (BP _ _ Hq).
    unfold crossing, mirror; simpl. lia.
Qed.

Lemma max_pairing_count_reverse (s : list ascii) m :
  max_pairing_count s m → max_pairing_count (reverse s) m.
Proof.
  intros [(P & HP & <-) Hm]. split.
  - exists (mirror (length s) <$> P). split; [by apply valid_mirror |].
    by rewrite length_fmap.
  - intros Q HQ%valid_mirror. rewrite reverse_involutive in HQ.
    specialize (Hm _ HQ). by rewrite length_fmap in Hm.
Qed.

(** A pairing set of [s2] is one of [s1 ++ s2], behind [s1]. *)
Lemma valid_behind (s1 s2 : list ascii) Q :
  valid_pairing_set s2 Q →
  valid_pairing_set (s1 ++ s2) (shift_right (length s1) <$> Q) ∧
  within (length s1) (length (s1 ++ s2)) (shift_right (length s1) <$> Q).
Proof.
  intros HQ. apply valid_shift_right.
  - rewrite length_app. lia.
  - rewrite drop_app_length, length_app, Nat.add_sub', take_ge by lia. done.
Qed.

Lemma max_pairing_count_app (s1 s2 : list ascii) m1 m2 m :
  max_pairing_count s1 m1 → max_pairing_count s2 m2 →
  max_pairing_count (s1 ++ s2) m → m1 + m2 ≤ m.
Proof.
  intros [(P & HP & <-) _] [(Q & HQ & <-) _] [_ Hm].
  destruct (valid_behind s1 s2 Q HQ) as [HV HW].
  pose proof (valid_app (s1 ++ s2) 0 (length s1) (length (s1 ++ s2)) P _
                (valid_pairing_set_app _ s2 _ HP) HV (valid_within _ _ HP) HW)
    as Hjoin.
  specialize (Hm _ Hjoin). by rewrite length_app, length_fmap in Hm.
Qed.

End mirror.

(** ** Further properties of [maxRNAFoldingScore] *)

(** X1: what the source says of its table, "dp[i][j] represents max score
    for substring from i to j".  When a call on a sequence of [n] symbols
    returns, the store holds behind its former objects a table of [n] rows
    of [n] entries, and every entry [dp[i][j]] with [i <= j] is the score
    that a call on the slice [sequence[i:j+1]] returns. *)
Theorem table_holds_slice_scores (sequence : string) (h0 : heap) :
  sequence ≠ ""%string →
  ∃ t, (maxRNAFoldingScore sequence h0).2 = h0 ++ t ∧
       square (String.length sequence) t ∧
       ∀ i j : nat, (i ≤ j < String.length sequence)%nat →
         ∃ v, cell t i j = Some v ∧
              ∀ h, (maxRNAFoldingScore (py_slice sequence i (S j)) h).1 = Ok v.
Proof.
  intros Hne.
  destruct (maxRNAFoldingScore_table sequence h0 Hne) as (t & Hst & Hsq & Hdone).
  rewrite length_list_ascii in *.
  exists t. split_and!; [done | done |].
  intros i j Hij. destruct (Hdone i j) as (m & Hc & Hopt); [lia | lia |].
  exists (Z.of_nat m). split; [done |]. intros h.
  apply maxRNAFoldingScore_value; [apply py_slice_nonempty; lia |].
  rewrite list_ascii_of_py_slice. apply optimum_slice; [| done].
  rewrite length_list_ascii. lia.
Qed.

Lemma table_holds_slice_scores_witness :
  "GCAU"%string ≠ ""%string ∧
  ∃ t, (maxRNAFoldingScore "GCAU" []).2 = [] ++ t ∧
       square (String.length "GCAU") t ∧
       ∀ i j : nat, (i ≤ j < String.length "GCAU")%nat →
         ∃ v, cell t i j = Some v ∧
              ∀ h, (maxRNAFoldingScore (py_slice "GCAU" i (S j)) h).1 = Ok v.
Proof.
  assert ("GCAU"%string ≠ ""%string) as H by discriminate.
  split; [exact H |]. exact (table_holds_slice_scores "GCAU" [] H).
Defined.

(** X2: a slice does not score more than the sequence it is cut from. *)
Theorem slice_score_le (sequence : string) (lo hi : nat) (h : heap) :
  (lo < hi ≤ String.length sequence)%nat →
  ∃ v v', (maxRNAFoldingScore (py_slice sequence lo hi) h).1 = Ok v ∧
          (maxRNAFoldingScore sequence h).1 = Ok v' ∧
          v ≤ v'.
Proof.
  intros Hlohi.
  assert (sequence ≠ ""%string) as Hne by (destruct sequence; simpl in *; [lia | done]).
  destruct (maxRNAFoldingScore_run sequence h Hne) as (m' & t' & -> & [_ Hm']).
  destruct (maxRNAFoldingScore_run (py_slice sequence lo hi) h
              (py_slice_nonempty _ _ _ Hlohi)) as (m & t & -> & Hm).
  exists (Z.of_nat m), (Z.of_nat m'). split_and!; [done | done |].
  rewrite list_ascii_of_py_slice in Hm.
  apply optimum_slice in Hm as [(P & HP & _ & <-) _];
    [| rewrite length_list_ascii; lia].
  specialize (Hm' _ HP). simpl. lia.
Qed.

Lemma slice_score_le_witness :
  (1 < 3 ≤ String.length "AGCU")%nat ∧
  ∃ v v', (maxRNAFoldingScore (py_slice "AGCU" 1 3) []).1 = Ok v ∧
          (maxRNAFoldingScore "AGCU" []).1 = Ok v' ∧
          v ≤ v'.
Proof.
  assert (1 < 3 ≤ String.length "AGCU")%nat as H by (simpl; lia).
  split; [exact H |]. exact (slice_score_le "AGCU" 1 3 [] H).
Defined.

(** X3: the score of a concatenation is at least the sum of the scores of
    its two parts. *)
Theorem concatenation_score_ge_sum (s1 s2 : string) (h : heap) :
  s1 ≠ ""%string → s2 ≠ ""%string →
  ∃ v1 v2 v, (maxRNAFoldingScore s1 h).1 = Ok v1 ∧
             (maxRNAFoldingScore s2 h).1 = Ok v2 ∧
             (maxRNAFoldingScore (s1 ++ s2) h).1 = Ok v ∧
             v1 + v2 ≤ v.
Proof.
  intros Hne1 Hne2.
  destruct (maxRNAFoldingScore_run s1 h Hne1) as (m1 & t1 & -> & Hm1).
  destruct (maxRNAFoldingScore_run s2 h Hne2) as (m2 & t2 & -> & Hm2).
  destruct (maxRNAFoldingScore_run (s1 ++ s2) h) as (m & t & -> & Hm).
  { by destruct s1. }
  exists (Z.of_nat m1), (Z.of_nat m2), (Z.of_nat m).
  split_and!; [done | done | done |].
  rewrite list_ascii_of_string_app in Hm.
  pose proof (max_pairing_count_app _ _ _ _ _ Hm1 Hm2 Hm). lia.
Qed.

Lemma concatenation_score_ge_sum_witness :
  "AU"%string ≠ ""%string ∧ "GC"%string ≠ ""%string ∧
  ∃ v1 v2 v, (maxRNAFoldingScore "AU" []).1 = Ok v1 ∧
             (maxRNAFoldingScore "GC" []).1 = Ok v2 ∧
             (maxRNAFoldingScore ("AU" ++ "GC") []).1 = Ok v ∧
             v1 + v2 ≤ v.
Proof.
  assert ("AU"%string ≠ ""%string) as H1 by discriminate.
  assert ("GC"%string ≠ ""%string) as H2 by discriminate.
  split; [exact H1 |]. split; [exact H2 |].
  exact (concatenation_score_ge_sum "AU" "GC" [] H1 H2).
Defined.

(** X4: a sequence and its reversal [sequence[::-1]] have the same outcome:
    the same score, or [IndexError] for both when the sequence is empty. *)
Theorem reversed_same_outcome (sequence : string) (h h' : heap) :
  (maxRNAFoldingScore (py_reversed sequence) h).1
  = (maxRNAFoldingScore sequence h').1.
Proof.
  destruct (String.string_dec sequence "") as [->|Hne]; [done |].
  destruct (maxRNAFoldingScore_run sequence h' Hne) as (m & t & -> & Hm).
  apply maxRNAFoldingScore_value.
  - intros Heq. apply (f_equal list_ascii_of_string) in Heq.
    unfold py_reversed in Heq.
    rewrite list_ascii_of_string_of_list_ascii in Heq.
    apply (f_equal length) in Heq. rewrite length_reverse in Heq.
    apply list_ascii_nonempty in Hne. simpl in Heq. lia.
  - unfold py_reversed. rewrite list_ascii_of_string_of_list_ascii.
    by apply max_pairing_count_reverse.
Qed.

(** X5: the call returns 0 exactly when the sequence is not empty and holds
    no two symbols that [can_pair] accepts. *)
Theorem score_zero_iff (sequence : string) (h : heap) :
  (maxRNAFoldingScore sequence h).1 = Ok 0 ↔
  sequence ≠ ""%string ∧
  ∀ x y, x ∈ list_ascii_of_string sequence →
         y ∈ list_ascii_of_string sequence → can_pair x y = false.
Proof.
  split.
  - intros Hzero.
    destruct (String.string_dec sequence "") as [->|Hne]; [done |].
    split; [done |]. intros x y Hx Hy.
    destruct (maxRNAFoldingScore_run sequence h Hne) as (m & t & Hrun & [_ Hm]).
    rewrite Hrun in Hzero. simpl in Hzero.
    assert (m = 0%nat) as -> by (injection Hzero; lia).
    assert (∀ i j a b, (i < j)%nat →
              list_ascii_of_string sequence !! i = Some a →
              list_ascii_of_string sequence !! j = Some b →
              ¬ complementary a b) as Hnone.
    { intros i j a b Hij Ha Hb Hab.
      pose proof (valid_cons _ i j [] a b (valid_nil _) (within_nil _ _)
                    Hij Ha Hb Hab) as HV.
      specialize (Hm _ HV). simpl in Hm. lia. }
    destruct (can_pair x y) eqn:Hxy; [| done].
    apply can_pair_complementary in Hxy.
    apply list_elem_of_lookup in Hx as [i Hi], Hy as [j Hj].
    destruct (Nat.lt_total i j) as [Hlt|[->|Hlt]].
    + by destruct (Hnone i j x y).
    + rewrite Hi in Hj. injection Hj as <-.
      destruct Hxy as [[-> ?]|[[-> ?]|[[-> ?]|[-> ?]]]]; discriminate.
    + apply complementary_sym in Hxy. by destruct (Hnone j i y x).
  - intros [Hne Hnone].
    destruct (maxRNAFoldingScore_run sequence h Hne)
      as (m & t & -> & [(P & HP & <-) _]).
    destruct P as [|[i j] P]; [done |].
    destruct (vps_pair _ _ HP i j) as (_ & x & y & Hx & Hy & Hxy);
      [by apply elem_of_cons; left |].
    apply can_pair_complementary in Hxy.
    rewrite Hnone in Hxy; [done | |]; by eapply list_elem_of_lookup_2.
Qed.


(** *** Counting symbols *)

Section counting.
Local Open Scope nat_scope.

#[local] Instance ascii_eq_decision : EqDecision ascii := Ascii.ascii_dec.

Lemma length_positions_from k c l :
  length (positions_from k c l) = py_count c l.
Proof.
  revert k. induction l as [|x l IH]; intros k; simpl; [done |].
  rewrite length_app, IH. by destruct (Ascii.eqb x c).
Qed.

Lemma elem_of_positions_from k c l i :
  l !! i = Some c → k + i ∈ positions_from k c l.
Proof.
  revert k i. induction l as [|x l IH]; intros k [|i] Hi; simpl in *; [done.. | |].
  - injection Hi as ->. rewrite Ascii.eqb_refl, Nat.add_0_r.
    apply elem_of_app. left. by apply list_elem_of_singleton.
  - apply elem_of_app. right.
    replace (k + S i) with (S k + i) by lia. by apply IH.
Qed.

(** Pairings that each own a position holding [c] are no more than the
    occurrences of [c]. *)
Lemma valid_length_le_count (s : list ascii) P (pos : pairing → nat) c :
  valid_pairing_set s P →
  (∀ p, p ∈ P → (pos p = p.1 ∨ pos p = p.2) ∧ s !! pos p = Some c) →
  length P ≤ py_count c s.
Proof.
  intros HP Hpos.
  assert (NoDup (pos <$> P)) as HN.
  { apply NoDup_fmap_2_strong; [| apply HP].
    intros p q Hp Hq Heq. destruct (decide (p = q)) as [|Hne]; [done |].
    destruct (vps_disjoint _ _ HP p q Hp Hq Hne).
    destruct (Hpos p Hp) as [Hp' _], (Hpos q Hq) as [Hq' _].
    unfold share_position. lia. }
  assert (pos <$> P ⊆+ positions_from 0 c s) as Hsub.
  { apply NoDup_submseteq; [done |].
    intros i (p & -> & Hp)%list_elem_of_fmap.
    destruct (Hpos p Hp) as [_ Hc].
    by apply (elem_of_positions_from 0). }
  apply submseteq_length in Hsub.
  by rewrite length_fmap, length_positions_from in Hsub.
Qed.

(** The first symbol of a pairing decides which two symbols it joins. *)
Lemma pairing_symbols (s : list ascii) P i j :
  valid_pairing_set s P → (i, j) ∈ P →
  (s !! i = Some "A"%char ∧ s !! j = Some "U"%char) ∨
  (s !! i = Some "U"%char ∧ s !! j = Some "A"%char) ∨
  (s !! i = Some "G"%char ∧ s !! j = Some "C"%char) ∨
  (s !! i = Some "C"%char ∧ s !! j = Some "G"%char).
Proof.
  intros HP Hp.
  destruct (vps_pair _ _ HP i j Hp) as (_ & x & y & -> & -> & Hxy).
  unfold complementary in Hxy.
  destruct Hxy as [[-> ->]|[[-> ->]|[[-> ->]|[-> ->]]]]; tauto.
Qed.

(** The pairings of A with U are no more than the A's and no more than
    the U's; the same for G and C. *)
Lemma valid_length_le_counts (s : list ascii) P :
  valid_pairing_set s P →
  length P ≤ (py_count "A" s `min` py_count "U" s)
             + (py_count "G" s `min` py_count "C" s).
Proof.
  intros HP.
  set (is_AU := λ p : pairing,
         s !! p.1 = Some "A"%char ∨ s !! p.1 = Some "U"%char).
  assert (∀ p, Decision (is_AU p)) as Hdec by (intros p; unfold is_AU; apply _).
  pose proof (filter_app_complement is_AU P) as Hsplit.
  apply Permutation_length in Hsplit. rewrite length_app in Hsplit.
  assert (valid_pairing_set s (filter is_AU P)) as HAU
    by (apply (valid_submseteq _ P); [done | apply sublist_submseteq, sublist_filter]).
  assert (valid_pairing_set s (filter (λ p, ¬ is_AU p) P)) as HGC
    by (apply (valid_submseteq _ P); [done | apply sublist_submseteq, sublist_filter]).
  assert (∀ c (sel : pairing → bool) Q,
            valid_pairing_set s Q →
            (∀ p, p ∈ Q → s !! (if sel p then p.1 else p.2) = Some c) →
            length Q ≤ py_count c s) as Hle.
  { intros c sel Q HQ Hsel.
    apply (valid_length_le_count s Q (λ p, if sel p then p.1 else p.2) c HQ).
    intros p Hp. split; [destruct (sel p); auto | by apply Hsel]. }
  assert (length (filter is_AU P) ≤ py_count "A" s) as H1.
  { apply (Hle "A"%char
             (λ p, bool_decide (s !! p.1 = Some "A"%char)) _ HAU).
    intros [i j] [Hp1 Hp]%list_elem_of_filter. simpl in *.
    destruct (pairing_symbols s P i j HP Hp) as [[Hi Hj]|[[Hi Hj]|[[Hi Hj]|[Hi Hj]]]];
      unfold is_AU in Hp1; simpl in Hp1; rewrite Hi in *;
      try (destruct Hp1; discriminate).
    - by rewrite bool_decide_eq_true_2.
    - by rewrite bool_decide_eq_false_2. }
  assert (length (filter is_AU P) ≤ py_count "U" s) as H2.
  { apply (Hle "U"%char
             (λ p, bool_decide (s !! p.1 = Some "U"%char)) _ HAU).
    intros [i j] [Hp1 Hp]%list_elem_of_filter. simpl in *.
    destruct (pairing_symbols s P i j HP Hp) as [[Hi Hj]|[[Hi Hj]|[[Hi Hj]|[Hi Hj]]]];
      unfold is_AU in Hp1; simpl in Hp1; rewrite Hi in *;
      try (destruct Hp1; discriminate).
    - by rewrite bool_decide_eq_false_2.
    - by rewrite bool_decide_eq_true_2. }
  assert (length (filter (λ p, ¬ is_AU p) P) ≤ py_count "G" s) as H3.
  { apply (Hle "G"%char
             (λ p, bool_decide (s !! p.1 = Some "G"%char)) _ HGC).
    intros [i j] [Hp1 Hp]%list_elem_of_filter. simpl in *.
    destruct (pairing_symbols s P i j HP Hp) as [[Hi Hj]|[[Hi Hj]|[[Hi Hj]|[Hi Hj]]]];
      unfold is_AU in Hp1; simpl in Hp1; rewrite Hi in *;
      try (destruct Hp1; by auto).
    - by rewrite bool_decide_eq_true_2.
    - by rewrite bool_decide_eq_false_2. }
  assert (length (filter (λ p, ¬ is_AU p) P) ≤ py_count "C" s) as H4.
  { apply (Hle "C"%char
             (λ p, bool_decide (s !! p.1 = Some "C"%char)) _ HGC).
    intros [i j] [Hp1 Hp]%list_elem_of_filter. simpl in *.
    destruct (pairing_symbols s P i j HP Hp) as [[Hi Hj]|[[Hi Hj]|[[Hi Hj]|[Hi Hj]]]];
      unfold is_AU in Hp1; simpl in Hp1; rewrite Hi in *;
      try (destruct Hp1; by auto).
    - by rewrite bool_decide_eq_false_2.
    - by rewrite bool_decide_eq_true_2. }
  lia.
Qed.

End counting.

Section nesting.
Local Open Scope nat_scope.

Lemma length_nested lo k : length (nested lo k) = k.
Proof. revert lo. induction k as [|k IH]; intros lo; simpl; [done | by rewrite IH]. Qed.

(** In [x * n ++ y * n] with complementary [x] and [y] the pairings that
    nest around the middle form a valid pairing set. *)
Lemma valid_nested (x y : ascii) (n : nat) :
  complementary x y →
  ∀ k lo, lo + k = n →
    valid_pairing_set (replicate n x ++ replicate n y) (nested lo k) ∧
    within lo (lo + 2 * k) (nested lo k).
Proof.
  intros Hxy. induction k as [|k IH]; intros lo Hlo; simpl.
  - split; [apply valid_nil | apply within_nil].
  - destruct (IH (S lo)) as [HV HW]; [lia |].
    split.
    + apply (valid_cons _ lo (lo + 2 * k + 1) _ x y); [done | | lia | | | done].
      * eapply within_weaken; [done | lia | lia].
      * rewrite lookup_app_l by (rewrite length_replicate; lia).
        apply lookup_replicate_2. lia.
      * rewrite lookup_app_r by (rewrite length_replicate; lia).
        rewrite length_replicate. apply lookup_replicate_2. lia.
    + intros p [->|Hp]%elem_of_cons; [simpl; lia |].
      specialize (HW _ Hp). lia.
Qed.

End nesting.

(** X6: the score is at most the number of A-U pairings the symbol counts
    allow plus the number of G-C pairings they allow:
    [min(count('A'), count('U')) + min(count('G'), count('C'))]. *)
Theorem score_le_symbol_counts (sequence : string) (h : heap) :
  sequence ≠ ""%string →
  ∃ v, (maxRNAFoldingScore sequence h).1 = Ok v ∧
       v ≤ Z.of_nat (py_count "A" (list_ascii_of_string sequence))
             `min` Z.of_nat (py_count "U" (list_ascii_of_string sequence))
           + Z.of_nat (py_count "G" (list_ascii_of_string sequence))
             `min` Z.of_nat (py_count "C" (list_ascii_of_string sequence)).
Proof.
  intros Hne.
  destruct (maxRNAFoldingScore_run sequence h Hne)
    as (m & t & -> & [(P & HP & <-) _]).
  exists (Z.of_nat (length P)). split; [done |].
  apply valid_length_le_counts in HP. lia.
Qed.

Lemma score_le_symbol_counts_witness :
  "AAUG"%string ≠ ""%string ∧
  ∃ v, (maxRNAFoldingScore "AAUG" []).1 = Ok v ∧
       v ≤ Z.of_nat (py_count "A" (list_ascii_of_string "AAUG"))
             `min` Z.of_nat (py_count "U" (list_ascii_of_string "AAUG"))
           + Z.of_nat (py_count "G" (list_ascii_of_string "AAUG"))
             `min` Z.of_nat (py_count "C" (list_ascii_of_string "AAUG")).
Proof.
  assert ("AAUG"%string ≠ ""%string) as H by discriminate.
  split; [exact H |]. exact (score_le_symbol_counts "AAUG" [] H).
Defined.

(** X7: [k] copies of a symbol followed by [k] copies of a symbol it can
    pair with score [k], the most a sequence of [2 * k] symbols can
    score. *)
Theorem nested_sequence_score (x y : ascii) (k : nat) (h : heap) :
  can_pair x y = true → (1 ≤ k)%nat →
  (maxRNAFoldingScore (py_repeat_symbol x k ++ py_repeat_symbol y k) h).1
  = Ok (Z.of_nat k).
Proof.
  intros Hxy%can_pair_complementary Hk.
  assert (list_ascii_of_string (py_repeat_symbol x k ++ py_repeat_symbol y k)
          = replicate k x ++ replicate k y) as Hl.
  { unfold py_repeat_symbol.
    by rewrite list_ascii_of_string_app, !list_ascii_of_string_of_list_ascii. }
  apply maxRNAFoldingScore_value.
  - intros Heq. apply (f_equal list_ascii_of_string) in Heq.
    rewrite Hl in Heq. apply (f_equal length) in Heq.
    rewrite length_app, !length_replicate in Heq. simpl in Heq. lia.
  - rewrite Hl. split.
    + exists (nested 0 k). split; [| apply length_nested].
      by apply (valid_nested x y k Hxy k 0).
    + intros P HP%valid_length.
      rewrite length_app, !length_replicate in HP. lia.
Qed.

Lemma nested_sequence_score_witness :
  can_pair "G" "C" = true ∧ (1 ≤ 4)%nat ∧
  (maxRNAFoldingScore (py_repeat_symbol "G" 4 ++ py_repeat_symbol "C" 4) []).1
  = Ok (Z.of_nat 4).
Proof.
  assert (can_pair "G" "C" = true) as H1 by reflexivity.
  assert (1 ≤ 4)%nat as H2 by lia.
  split; [exact H1 |]. split; [exact H2 |].
  exact (nested_sequence_score "G" "C" 4 [] H1 H2).
Defined.


(** ** Two Sum *)

Section two_sum.
Variable target : Z.

Lemma last_seen_empty : last_seen [] ∅.
Proof.
  split.
  - intros v Hv. by apply elem_of_nil in Hv.
  - intros v a Hv. by rewrite lookup_empty in Hv.
Qed.

Lemma last_seen_insert (seen : list Z) (m : gmap Z Z) (num : Z) :
  last_seen seen m →
  last_seen (seen ++ [num]) (<[num := Z.of_nat (length seen)]> m).
Proof.
  intros [Hkeys Hlast]. split.
  - intros v Hv. destruct (decide (v = num)) as [->|Hne].
    + rewrite lookup_insert_eq. by eexists.
    + rewrite lookup_insert_ne by done. apply Hkeys.
      apply elem_of_app in Hv as [Hv|Hv%list_elem_of_singleton]; done.
  - intros v a Hv. destruct (decide (v = num)) as [->|Hne].
    + rewrite lookup_insert_eq in Hv. injection Hv as <-.
      exists (length seen). split_and!; [done | by apply list_lookup_middle |].
      intros i' Hi'%lookup_lt_Some. rewrite length_app in Hi'. simpl in Hi'. lia.
    + rewrite lookup_insert_ne in Hv by done.
      destruct (Hlast v a Hv) as (i & -> & Hi & Hmax).
      exists i. split_and!; [done | by apply lookup_app_l_Some |].
      intros i' Hi'. apply Hmax.
      apply lookup_app_Some in Hi' as [Hi'|[Hge Hi']]; [done |].
      apply list_lookup_singleton_Some in Hi' as [_ ?]. congruence.
Qed.

(** The loop, entered after the numbers [seen] among which no two add up to
    [target], gives the answer for the whole list. *)
Lemma twoSum_loop_answer (rest seen : list Z) (m : gmap Z Z) :
  last_seen seen m →
  (∀ a b : nat, (a < b < length seen)%nat →
     ¬ sums_to (seen ++ rest) target a b) →
  twoSum_answer (seen ++ rest) target
    (twoSum_loop target m (enumerate_from (Z.of_nat (length seen)) rest)).
Proof.
  revert seen m. induction rest as [|num rest IH]; intros seen m Hm Hnone.
  - left. split; [done |]. intros a b Hab Hsum.
    destruct (decide (b < length seen)%nat) as [Hb|Hb]; [by apply (Hnone a b) |].
    destruct Hsum as (x & y & _ & Hy%lookup_lt_Some & _).
    rewrite app_nil_r in Hy. lia.
  - simpl. destruct (m !! (target - num)) as [a0|] eqn:Hfound.
    + destruct Hm as [_ Hlast].
      destruct (Hlast _ _ Hfound) as (i & -> & Hi & Hmax).
      pose proof (lookup_lt_Some _ _ _ Hi) as Hlt.
      right. exists i, (length seen). split_and!; [done | done | | |].
      * exists (target - num), num.
        split_and!; [by apply lookup_app_l_Some | by apply list_lookup_middle | lia].
      * intros a' b' Hab Hsum.
        destruct (decide (b' < length seen)%nat) as [Hb|Hb]; [| lia].
        by destruct (Hnone a' b').
      * intros a' Ha' (x & y & Hx & Hy & Hxy).
        rewrite list_lookup_middle in Hy by done. injection Hy as Hy. subst y.
        rewrite lookup_app_l in Hx by done.
        apply Hmax. by replace (target - num) with x by lia.
    + replace (seen ++ num :: rest) with ((seen ++ [num]) ++ rest)
        by (by rewrite <- app_assoc).
      replace (Z.of_nat (length seen) + 1)
        with (Z.of_nat (length (seen ++ [num])))
        by (rewrite length_app; simpl; lia).
      apply IH; [by apply last_seen_insert |].
      rewrite <- app_assoc. simpl. intros a b Hab Hsum.
      rewrite length_app in Hab. simpl in Hab.
      destruct (decide (b < length seen)%nat) as [Hb|Hb];
        [apply (Hnone a b); [lia | done] |].
      assert (b = length seen) as -> by lia.
      destruct Hsum as (x & y & Hx & Hy & Hxy).
      rewrite list_lookup_middle in Hy by done. injection Hy as Hy. subst y.
      rewrite lookup_app_l in Hx by lia.
      destruct Hm as [Hkeys _].
      destruct (Hkeys x) as [a0 Ha0]; [by eapply list_elem_of_lookup_2 |].
      replace (target - num) with x in Hfound by lia. congruence.
Qed.

Lemma twoSum_answers (nums : list Z) :
  twoSum_answer nums target (twoSum nums target).
Proof.
  apply (twoSum_loop_answer nums [] ∅); [apply last_seen_empty |].
  intros a b Hab. simpl in Hab. lia.
Qed.

End two_sum.

Lemma sums_to_sym (nums : list Z) (target : Z) (a b : nat) :
  sums_to nums target a b → sums_to nums target b a.
Proof. intros (x & y & Hx & Hy & Hxy). exists y, x. split_and!; (done || lia). Qed.

(** X8: [twoSum] returns either [[]] or two positions [a < b] of [nums]
    whose numbers add up to [target]; it never returns one position twice
    or a position outside the list. *)
Theorem twoSum_sound (nums : list Z) (target : Z) :
  twoSum nums target = [] ∨
  ∃ a b : nat, twoSum nums target = [Z.of_nat a; Z.of_nat b] ∧
               (a < b < length nums)%nat ∧ sums_to nums target a b.
Proof.
  destruct (twoSum_answers target nums) as [[-> _]|(a & b & -> & Hab & Hsum & _)];
    [by left |].
  right. exists a, b. split_and!; [done | done | | done].
  destruct Hsum as (x & y & _ & Hy%lookup_lt_Some & _). done.
Qed.

(** X9: [twoSum] returns [[]] exactly when no two different positions of
    [nums] hold numbers that add up to [target]. *)
Theorem twoSum_empty_iff (nums : list Z) (target : Z) :
  twoSum nums target = [] ↔
  ∀ a b : nat, a ≠ b → ¬ sums_to nums target a b.
Proof.
  destruct (twoSum_answers target nums)
    as [[-> Hnone]|(a & b & -> & Hab & Hsum & _)].
  - split; [| done]. intros _ a b Hne Hsum.
    destruct (Nat.lt_total a b) as [Hlt|[->|Hlt]]; [| done |].
    + by apply (Hnone a b).
    + by apply (Hnone b a), sums_to_sym.
  - split; [done |]. intros Hnone. destruct (Hnone a b); [lia | done].
Qed.

(** X10: which pair [twoSum] returns when several fit: the second position
    is the first one of [nums] that closes a pair, and the first position
    is the last one before it whose number fits (a later occurrence of a
    number replaces the earlier one in the dictionary). *)
Theorem twoSum_first_pair (nums : list Z) (target : Z) (a b : nat) :
  twoSum nums target = [Z.of_nat a; Z.of_nat b] →
  (∀ a' b' : nat, (a' < b')%nat → sums_to nums target a' b' → (b ≤ b')%nat) ∧
  (∀ a' : nat, (a' < b)%nat → sums_to nums target a' b → (a' ≤ a)%nat).
Proof.
  intros Heq.
  destruct (twoSum_answers target nums)
    as [[Hnil _]|(a0 & b0 & Hr & _ & _ & Hfirst & Hlast)]; [congruence |].
  rewrite Hr in Heq. injection Heq as Ha%Nat2Z.inj Hb%Nat2Z.inj. by subst.
Qed.

Lemma twoSum_first_pair_witness :
  twoSum [1; 1; 5] 6 = [Z.of_nat 1; Z.of_nat 2] ∧
  (∀ a' b' : nat, (a' < b')%nat → sums_to [1; 1; 5] 6 a' b' → (2 ≤ b')%nat) ∧
  (∀ a' : nat, (a' < 2)%nat → sums_to [1; 1; 5] 6 a' 2 → (a' ≤ 1)%nat).
Proof.
  assert (twoSum [1; 1; 5] 6 = [Z.of_nat 1; Z.of_nat 2]) as H
    by (vm_compute; reflexivity).
  split; [exact H |]. exact (twoSum_first_pair [1; 1; 5] 6 1 2 H).
Defined.

(** X11: the contract of the docstring.  When exactly one pair of positions
    [a < b] adds up to [target], [twoSum] returns [[a, b]]. *)
Theorem twoSum_unique_solution (nums : list Z) (target : Z) (a b : nat) :
  (a < b)%nat → sums_to nums target a b →
  (∀ a' b' : nat, (a' < b')%nat → sums_to nums target a' b' →
     a' = a ∧ b' = b) →
  twoSum nums target = [Z.of_nat a; Z.of_nat b].
Proof.
  intros Hab Hsum Huniq.
  destruct (twoSum_answers target nums)
    as [[_ Hnone]|(a0 & b0 & -> & Hab0 & Hsum0 & _)].
  - by destruct (Hnone a b).
  - by destruct (Huniq a0 b0 Hab0 Hsum0) as [-> ->].
Qed.

Lemma twoSum_unique_solution_witness :
  twoSum [2; 7; 11; 15] 9 = [Z.of_nat 0; Z.of_nat 1].
Proof.
  apply twoSum_unique_solution.
  - lia.
  - exists 2, 7. by split_and!.
  - intros a' b' Hlt (x & y & Hx & Hy & Hxy).
    destruct a' as [|[|[|[|a']]]], b' as [|[|[|[|b']]]];
      simpl in Hx, Hy; try discriminate; try lia;
      injection Hx as <-; injection Hy as <-; lia.
Defined.


(** ** Test results *)

Section test_results.
Context {T : Type}.
Implicit Types (r : TestResult T) (d : test_detail T).

Lemma count_status_app (status : string) (ds ds' : list (test_detail T)) :
  count_status status (ds ++ ds')
  = count_status status ds + count_status status ds'.
Proof. unfold count_status. rewrite filter_app, length_app. lia. Qed.

Lemma count_status_singleton (status : string) d :
  count_status status [d]
  = if String.eqb (detail_status d) status then 1 else 0.
Proof.
  unfold count_status. rewrite filter_cons, filter_nil.
  destruct (String.eqb (detail_status d) status); by case_decide.
Qed.

Lemma add_result_details r name status message time :
  details (add_result r name status message time)
  = details r ++ [{| detail_name := name; detail_status := status;
                     detail_message := message; detail_time := time |}].
Proof.
  unfold add_result.
  by destruct (String.eqb status "passed"), (String.eqb status "failed"),
              (String.eqb status "error").
Qed.

Lemma add_result_total r name status message time :
  total (add_result r name status message time) = total r + 1.
Proof.
  unfold add_result.
  by destruct (String.eqb status "passed"), (String.eqb status "failed"),
              (String.eqb status "error").
Qed.

Lemma add_result_counters_agree r name status message time :
  counters_agree r → counters_agree (add_result r name status message time).
Proof.
  intros (Ht & Hp & Hf & He). unfold counters_agree.
  rewrite add_result_details, add_result_total, length_app, !count_status_app,
    !count_status_singleton. simpl.
  unfold add_result.
  destruct (String.eqb status "passed") eqn:E1.
  { apply String.eqb_eq in E1 as ->. simpl. lia. }
  destruct (String.eqb status "failed") eqn:E2.
  { apply String.eqb_eq in E2 as ->. simpl. lia. }
  destruct (String.eqb status "error") eqn:E3; simpl; lia.
Qed.

Lemma TestResult_init_counters_agree (zero : T) :
  counters_agree (TestResult_init zero).
Proof. by split_and!. Qed.

Lemma add_detail_details r d : details (add_detail r d) = details r ++ [d].
Proof. unfold add_detail. rewrite add_result_details. by destruct d. Qed.

Lemma foldl_add_detail r (ds : list (test_detail T)) :
  counters_agree r →
  counters_agree (foldl add_detail r ds) ∧
  details (foldl add_detail r ds) = details r ++ ds.
Proof.
  revert r. induction ds as [|d ds IH]; intros r Hr; simpl.
  - by rewrite app_nil_r.
  - destruct (IH (add_detail r d)) as [Hc Hd];
      [by apply add_result_counters_agree |].
    split; [done |]. by rewrite Hd, add_detail_details, <- app_assoc.
Qed.

Lemma count_status_le (ds : list (test_detail T)) :
  count_status "passed" ds + count_status "failed" ds
  + count_status "error" ds ≤ Z.of_nat (length ds) ∧
  (count_status "passed" ds + count_status "failed" ds
   + count_status "error" ds = Z.of_nat (length ds)
   ↔ Forall (λ d, counted_status (detail_status d)) ds).
Proof.
  induction ds as [|d ds [IHle IHeq]]; [by split |].
  change (d :: ds) with ([d] ++ ds).
  rewrite !count_status_app, !count_status_singleton, length_app.
  change (length [d]) with 1%nat. rewrite Forall_app, Forall_singleton.
  unfold counted_status.
  destruct (String.eqb (detail_status d) "passed") eqn:E1.
  { apply String.eqb_eq in E1 as ->. simpl. split; [lia |].
    rewrite <- IHeq. intuition lia. }
  destruct (String.eqb (detail_status d) "failed") eqn:E2.
  { apply String.eqb_eq in E2 as ->. simpl. split; [lia |].
    rewrite <- IHeq. intuition lia. }
  destruct (String.eqb (detail_status d) "error") eqn:E3.
  { apply String.eqb_eq in E3 as ->. simpl. split; [lia |].
    rewrite <- IHeq. intuition lia. }
  apply String.eqb_neq in E1, E2, E3. split; [lia |].
  split; [lia | intros [[?|[?|?]] _]; done].
Qed.

End test_results.

(** X12: after any sequence of [add_result] calls on a fresh [TestResult],
    [details] lists the calls in order, [total] is their number, and
    [passed], [failed] and [errors] are the numbers of calls with the
    status ['passed'], ['failed'] and ['error']. *)
Theorem add_result_counts_calls {T} (zero : T) (calls : list (test_detail T)) :
  let r := foldl add_detail (TestResult_init zero) calls in
  details r = calls ∧
  total r = Z.of_nat (length calls) ∧
  passed r = count_status "passed" calls ∧
  failed r = count_status "failed" calls ∧
  errors r = count_status "error" calls.
Proof.
  intros r.
  destruct (foldl_add_detail (TestResult_init zero) calls
              (TestResult_init_counters_agree zero)) as [(Ht & Hp & Hf & He) Hd].
  fold r in Ht, Hp, Hf, He, Hd. simpl in Hd. by rewrite Hd in *.
Qed.

(** X13: [passed + failed + errors] never exceeds [total], and equals it
    exactly when every call had one of the statuses ['passed'], ['failed']
    and ['error']; a call with any other status is counted in [total]
    only. *)
Theorem add_result_total_bound {T} (zero : T) (calls : list (test_detail T)) :
  let r := foldl add_detail (TestResult_init zero) calls in
  passed r + failed r + errors r ≤ total r ∧
  (passed r + failed r + errors r = total r ↔
   Forall (λ d, counted_status (detail_status d)) calls).
Proof.
  intros r.
  destruct (foldl_add_detail (TestResult_init zero) calls
              (TestResult_init_counters_agree zero)) as [(Ht & Hp & Hf & He) Hd].
  fold r in Ht, Hp, Hf, He, Hd. simpl in Hd. rewrite Hd in *.
  rewrite Ht, Hp, Hf, He. apply count_status_le.
Qed.

Section parsing.
Context {T : Type} (zero : T).
Implicit Types (r : TestResult T).

(** A line that passes the test of the loop adds one entry, with a status
    that is counted. *)
Lemma parse_line_result r (line : string) :
  is_result_line (py_strip line) = true →
  ∃ name status message,
    parse_line zero r line = add_result r name status message zero ∧
    counted_status status.
Proof.
  intros Hline. unfold parse_line. rewrite Hline.
  unfold is_result_line in Hline.
  apply andb_true_iff in Hline as [_ Hword].
  unfold counted_status.
  destruct (py_contains "PASSED" (py_strip line)); [by eauto 10 |].
  destruct (py_contains "FAILED" (py_strip line)); [by eauto 10 |].
  destruct (py_contains "ERROR" (py_strip line)); [by eauto 10 | done].
Qed.

Lemma parse_line_other r (line : string) :
  is_result_line (py_strip line) = false → parse_line zero r line = r.
Proof. intros Hline. unfold parse_line. by rewrite Hline. Qed.

(** The state of the result in the loop: the counters agree with the
    entries and each entry has a counted status. *)
Lemma foldl_parse_line r (lines : list string) :
  counters_agree r →
  Forall (λ d, counted_status (detail_status d)) (details r) →
  let r' := foldl (parse_line zero) r lines in
  counters_agree r' ∧
  Forall (λ d, counted_status (detail_status d)) (details r') ∧
  total r' = total r
    + Z.of_nat (length (filter (λ line, is_result_line (py_strip line) = true)
                          lines)).
Proof.
  revert r. induction lines as [|line lines IH]; intros r Hr Hst; simpl.
  - split_and!; [done | done | lia].
  - destruct (is_result_line (py_strip line)) eqn:Hline.
    + destruct (parse_line_result r line Hline)
        as (name & status & message & -> & Hcounted).
      destruct (IH (add_result r name status message zero))
        as (Hc & Hd & Ht).
      { by apply add_result_counters_agree. }
      { rewrite add_result_details. apply Forall_app. split; [done |].
        by apply Forall_singleton. }
      split_and!; [done | done |].
      rewrite Ht, add_result_total, filter_cons_True by done. simpl length. lia.
    + rewrite (parse_line_other r line Hline).
      destruct (IH r Hr Hst) as (Hc & Hd & Ht).
      split_and!; [done | done |].
      rewrite Ht, filter_cons_False by (by rewrite Hline). done.
Qed.

End parsing.

Section parsing_output.
Context {T : Type} (zero : T).

Lemma foldl_parse_line_none (r : TestResult T) (lines : list string) :
  filter (λ line, is_result_line (py_strip line) = true) lines = [] →
  foldl (parse_line zero) r lines = r.
Proof.
  induction lines as [|line lines IH]; intros Hnone; simpl; [done |].
  destruct (is_result_line (py_strip line)) eqn:Hline.
  - by rewrite filter_cons_True in Hnone.
  - rewrite filter_cons_False in Hnone by (by rewrite Hline).
    rewrite (parse_line_other zero r line Hline). by apply IH.
Qed.

Lemma parse_loop_total (stdout stderr : string) :
  total (foldl (parse_line zero) (TestResult_init zero)
           (py_split_char "010" stdout ++ py_split_char "010" stderr))
  = Z.of_nat (length (result_lines stdout stderr)).
Proof.
  destruct (foldl_parse_line zero (TestResult_init zero)
              (py_split_char "010" stdout ++ py_split_char "010" stderr)
              (TestResult_init_counters_agree zero) (Forall_nil_2 _))
    as (_ & _ & Ht).
  rewrite Ht. unfold result_lines. simpl. lia.
Qed.

End parsing_output.

(** X14: [_parse_pytest_output] never returns an empty result.  Whatever
    the output and the return code are, [total] is the number of result
    lines of the output, or 1 when there is none; the counters agree with
    [details]; and every entry is passed, failed or an error, so that
    [passed + failed + errors = total]. *)
Theorem parse_pytest_output_counts {T} (zero : T)
    (stdout stderr : string) (returncode : Z) :
  let r := _parse_pytest_output zero stdout stderr returncode in
  total r = 1 `max` Z.of_nat (length (result_lines stdout stderr)) ∧
  counters_agree r ∧
  passed r + failed r + errors r = total r.
Proof.
  intros r.
  assert (counters_agree r ∧
          Forall (λ d, counted_status (detail_status d)) (details r) ∧
          total r = 1 `max` Z.of_nat (length (result_lines stdout stderr)))
    as (Hc & Hst & Ht).
  { subst r. unfold _parse_pytest_output. cbv zeta.
    pose proof (parse_loop_total zero stdout stderr) as Hn.
    destruct (foldl_parse_line zero (TestResult_init zero)
                (py_split_char "010" stdout ++ py_split_char "010" stderr)
                (TestResult_init_counters_agree zero) (Forall_nil_2 _))
      as (Hc & Hst & _).
    cbv zeta in Hc, Hst.
    set (r0 := foldl (parse_line zero) (TestResult_init zero) _) in *.
    destruct (Z.eqb_spec (total r0) 0) as [Hz|Hnz].
    - assert (∀ status message, counted_status status →
                let r1 := add_result r0 "pytest" status message zero in
                counters_agree r1 ∧
                Forall (λ d, counted_status (detail_status d)) (details r1) ∧
                total r1 = 1 `max` Z.of_nat (length (result_lines stdout stderr)))
        as Hadd.
      { intros status message Hcounted r1. subst r1. split_and!.
        - by apply add_result_counters_agree.
        - rewrite add_result_details. apply Forall_app. split; [done |].
          by apply Forall_singleton.
        - rewrite add_result_total. lia. }
      destruct (returncode =? 0); apply Hadd; unfold counted_status; auto.
    - split_and!; [done | done | lia]. }
  split_and!; [done | done |].
  destruct Hc as (Ht' & Hp & Hf & He). rewrite Hp, Hf, He, Ht'.
  by apply count_status_le.
Qed.

(** X15: the return code is looked at only when the output has no result
    line.  With at least one result line the result is the same for every
    return code. *)
Theorem parse_pytest_output_ignores_returncode {T} (zero : T)
    (stdout stderr : string) (returncode returncode' : Z) :
  result_lines stdout stderr ≠ [] →
  _parse_pytest_output zero stdout stderr returncode
  = _parse_pytest_output zero stdout stderr returncode'.
Proof.
  intros Hlines. unfold _parse_pytest_output. cbv zeta.
  rewrite parse_loop_total.
  destruct (Z.eqb_spec (Z.of_nat (length (result_lines stdout stderr))) 0)
    as [Hz|Hnz]; [| done].
  destruct (result_lines stdout stderr); [done | simpl in Hz; lia].
Qed.

Lemma parse_pytest_output_ignores_returncode_witness :
  result_lines "t.py::test_a PASSED" "" ≠ [] ∧
  _parse_pytest_output tt "t.py::test_a PASSED" "" 1
  = _parse_pytest_output tt "t.py::test_a PASSED" "" 0.
Proof.
  assert (result_lines "t.py::test_a PASSED" "" ≠ []) as H
    by (vm_compute; discriminate).
  split; [exact H |].
  exact (parse_pytest_output_ignores_returncode tt _ _ 1 0 H).
Defined.

(** X16: when the output has no result line (the empty output included),
    the result is the single entry ['pytest']: passed with the message
    ['All tests passed'] when the return code is 0, otherwise failed with
    the message [stderr or stdout]. *)
Theorem parse_pytest_output_fallback {T} (zero : T)
    (stdout stderr : string) (returncode : Z) :
  result_lines stdout stderr = [] →
  _parse_pytest_output zero stdout stderr returncode
  = if returncode =? 0
    then add_result (TestResult_init zero) "pytest" "passed"
           "All tests passed" zero
    else add_result (TestResult_init zero) "pytest" "failed"
           (py_or stderr stdout) zero.
Proof.
  intros Hlines. unfold _parse_pytest_output. cbv zeta.
  by rewrite (foldl_parse_line_none zero _ _ Hlines).
Qed.

Lemma parse_pytest_output_fallback_witness :
  result_lines "" "boom" = [] ∧
  _parse_pytest_output tt "" "boom" 2
  = add_result (TestResult_init tt) "pytest" "failed" "boom" tt.
Proof.
  assert (result_lines "" "boom" = []) as H by (vm_compute; reflexivity).
  split; [exact H |].
  exact (parse_pytest_output_fallback tt "" "boom" 2 H).
Defined.

(** ** Problem identifiers *)

Section identifiers.

Lemma py_lower_char_idem c : py_lower_char (py_lower_char c) = py_lower_char c.
Proof. by destruct c as [[] [] [] [] [] [] [] []]. Qed.

Lemma re_word_lower c : re_word (py_lower_char c) = re_word c.
Proof. by destruct c as [[] [] [] [] [] [] [] []]. Qed.

Lemma re_dash_or_space_lower c :
  re_dash_or_space (py_lower_char c) = re_dash_or_space c.
Proof. by destruct c as [[] [] [] [] [] [] [] []]. Qed.

Lemma re_word_not_dash_or_space c :
  re_word c = true → re_dash_or_space c = false.
Proof. by destruct c as [[] [] [] [] [] [] [] []]. Qed.

Lemma re_word_not_space c : re_word c = true → py_isspace c = false.
Proof. by destruct c as [[] [] [] [] [] [] [] []]. Qed.

Lemma dash_is_dash_or_space c : c = "-"%char → re_dash_or_space c = true.
Proof. by intros ->. Qed.

Lemma not_dash_or_space_not_dash c :
  re_dash_or_space c = false → c ≠ "-"%char.
Proof. by intros Hc ->. Qed.

Lemma id_char_dash_or_space c :
  id_char c → re_dash_or_space c = true → c = "-"%char.
Proof.
  intros [->|[Hw _]] Hsep; [done |].
  apply re_word_not_dash_or_space in Hw. congruence.
Qed.

(** *** The three steps *)

Lemma re_sub_other_lower (s : list ascii) :
  Forall (λ c, (re_word c = true ∨ re_dash_or_space c = true) ∧
               py_lower_char c = c)
    (re_sub_other (py_lower_char <$> s)).
Proof.
  unfold re_sub_other. apply Forall_forall.
  intros c [Hkeep (c0 & -> & _)%list_elem_of_fmap]%list_elem_of_filter.
  split; [by apply orb_true_iff | apply py_lower_char_idem].
Qed.

Lemma re_sub_runs_shape (in_run : bool) (s : list ascii) :
  Forall (λ c, (re_word c = true ∨ re_dash_or_space c = true) ∧
               py_lower_char c = c) s →
  Forall id_char (re_sub_runs in_run s) ∧
  single_dashes (re_sub_runs in_run s) ∧
  (in_run = true → head (re_sub_runs in_run s) ≠ Some "-"%char).
Proof.
  intros Hs. revert in_run.
  induction Hs as [|c s [Hkeep Hlow] _ IH]; intros in_run; simpl; [done |].
  destruct (re_dash_or_space c) eqn:Hsep.
  - destruct in_run; [apply IH |].
    destruct (IH true) as (Hid & Hsingle & Hhead).
    split_and!; [| | done].
    + constructor; [by left | done].
    + simpl. split; [auto | done].
  - destruct (IH false) as (Hid & Hsingle & _).
    pose proof (not_dash_or_space_not_dash c Hsep) as Hne.
    split_and!.
    + constructor; [| done]. right. destruct Hkeep; [done | congruence].
    + simpl. split; [done | done].
    + simpl. congruence.
Qed.

Lemma single_dashes_tail c (s : list ascii) :
  single_dashes (c :: s) → single_dashes s.
Proof. by intros [_ ?]. Qed.

Lemma py_lstrip_dash_shape (s : list ascii) :
  Forall id_char s → single_dashes s →
  Forall id_char (py_lstrip_dash s) ∧ single_dashes (py_lstrip_dash s) ∧
  head (py_lstrip_dash s) ≠ Some "-"%char.
Proof.
  induction s as [|c s IH]; intros Hid Hsingle; simpl; [done |].
  destruct (Ascii.eqb_spec c "-") as [->|Hne].
  - apply IH; [by inversion Hid | by apply single_dashes_tail in Hsingle].
  - split_and!; [done | done | simpl; congruence].
Qed.

Lemma py_rstrip_dash_head (s : list ascii) :
  py_rstrip_dash s ≠ [] → head (py_rstrip_dash s) = head s.
Proof.
  destruct s as [|c s]; simpl; [done |].
  destruct (py_rstrip_dash s); [| done].
  by destruct (Ascii.eqb c "-").
Qed.

Lemma py_rstrip_dash_shape (s : list ascii) :
  Forall id_char s → single_dashes s →
  Forall id_char (py_rstrip_dash s) ∧ single_dashes (py_rstrip_dash s) ∧
  last (py_rstrip_dash s) ≠ Some "-"%char.
Proof.
  induction s as [|c s IH]; intros Hid Hsingle; simpl; [done |].
  apply Forall_cons in Hid as [Hc Hid]. destruct Hsingle as [Hnext Hsingle].
  destruct (IH Hid Hsingle) as (Hid' & Hsingle' & Hlast).
  pose proof (py_rstrip_dash_head s) as Hhead.
  destruct (py_rstrip_dash s) as [|c' r] eqn:Hr.
  - destruct (Ascii.eqb_spec c "-") as [->|Hne]; [done |].
    split_and!; [by constructor | done | simpl; congruence].
  - split_and!.
    + by constructor.
    + simpl. split; [| done]. intros Hdash.
      specialize (Hnext Hdash). rewrite <- Hhead in Hnext by done. done.
    + by rewrite last_cons_cons.
Qed.

Lemma generate_id_well_formed (title : string) :
  well_formed_id (list_ascii_of_string (_generate_id title)).
Proof.
  unfold _generate_id. cbv zeta. rewrite list_ascii_of_string_of_list_ascii.
  destruct (re_sub_runs_shape false _ (re_sub_other_lower (list_ascii_of_string title)))
    as (Hid & Hsingle & _).
  destruct (py_lstrip_dash_shape _ Hid Hsingle) as (Hid1 & Hsingle1 & Hhead1).
  destruct (py_rstrip_dash_shape _ Hid1 Hsingle1) as (Hid2 & Hsingle2 & Hlast2).
  unfold py_strip_dash. split_and!; [done | done | | done].
  destruct (py_rstrip_dash (py_lstrip_dash _)) eqn:Hr; [done |].
  rewrite <- Hr, py_rstrip_dash_head; [done | by rewrite Hr].
Qed.

End identifiers.

Section identifiers_again.

Lemma id_char_lower (s : list ascii) :
  Forall id_char s → py_lower_char <$> s = s.
Proof.
  induction 1 as [|c s Hc _ IH]; [done |]. rewrite fmap_cons, IH. f_equal.
  by destruct Hc as [->|[_ ?]].
Qed.

Lemma id_char_kept (s : list ascii) : Forall id_char s → re_sub_other s = s.
Proof.
  unfold re_sub_other. induction 1 as [|c s Hc _ IH]; [done |].
  rewrite filter_cons_True, IH; [done |].
  destruct Hc as [->|[-> _]]; done.
Qed.

Lemma single_dashes_runs (s : list ascii) :
  Forall id_char s → single_dashes s →
  re_sub_runs false s = s ∧
  (head s ≠ Some "-"%char → re_sub_runs true s = s).
Proof.
  intros Hid. induction Hid as [|c s Hc _ IH]; intros Hsingle; simpl; [done |].
  destruct Hsingle as [Hnext Hsingle]. destruct (IH Hsingle) as [IH1 IH2].
  destruct (re_dash_or_space c) eqn:Hsep.
  - pose proof (id_char_dash_or_space c Hc Hsep) as ->.
    split; [| done]. by rewrite IH2 by auto.
  - by rewrite IH1.
Qed.

Lemma py_lstrip_dash_id (s : list ascii) :
  head s ≠ Some "-"%char → py_lstrip_dash s = s.
Proof.
  destruct s as [|c s]; simpl; [done |].
  destruct (Ascii.eqb_spec c "-") as [->|]; done.
Qed.

Lemma py_rstrip_dash_id (s : list ascii) :
  last s ≠ Some "-"%char → py_rstrip_dash s = s.
Proof.
  induction s as [|c s IH]; simpl; [done |]. intros Hlast.
  destruct s as [|c' s].
  - simpl. destruct (Ascii.eqb_spec c "-") as [->|]; done.
  - rewrite last_cons_cons in Hlast. by rewrite IH.
Qed.

(** *** Titles without a word character *)

Lemma re_sub_runs_no_word (s : list ascii) :
  Forall (λ c, re_dash_or_space c = true) s →
  re_sub_runs true s = [] ∧
  (re_sub_runs false s = [] ∨ re_sub_runs false s = ["-"%char]).
Proof.
  induction 1 as [|c s Hc _ [IH1 IH2]]; simpl; [auto |].
  rewrite Hc, IH1. auto.
Qed.

Lemma re_sub_runs_keeps (in_run : bool) (s : list ascii) c :
  re_dash_or_space c = false → c ∈ s → c ∈ re_sub_runs in_run s.
Proof.
  intros Hc. revert in_run. induction s as [|x s IH]; intros in_run Hin;
    [by apply elem_of_nil in Hin |].
  simpl. apply elem_of_cons in Hin as [<-|Hin].
  - rewrite Hc. apply elem_of_cons. by left.
  - destruct (re_dash_or_space x), in_run;
      try (apply elem_of_cons; right); by apply IH.
Qed.

Lemma py_lstrip_dash_keeps (s : list ascii) c :
  c ≠ "-"%char → c ∈ s → c ∈ py_lstrip_dash s.
Proof.
  intros Hc. induction s as [|x s IH]; intros Hin; [done |]. simpl.
  destruct (Ascii.eqb_spec x "-") as [->|Hne]; [| done].
  apply elem_of_cons in Hin as [->|Hin]; [done | by apply IH].
Qed.

Lemma py_rstrip_dash_keeps (s : list ascii) c :
  c ≠ "-"%char → c ∈ s → c ∈ py_rstrip_dash s.
Proof.
  intros Hc. induction s as [|x s IH]; intros Hin; [done |]. simpl.
  apply elem_of_cons in Hin as [->|Hin].
  - destruct (py_rstrip_dash s); [| by apply elem_of_cons; left].
    destruct (Ascii.eqb_spec x "-") as [->|]; [done |].
    by apply list_elem_of_singleton.
  - specialize (IH Hin).
    destruct (py_rstrip_dash s); [by apply elem_of_nil in IH |].
    apply elem_of_cons. by right.
Qed.

Lemma single_dashes_no_double (s u v : list ascii) :
  single_dashes s → s ≠ u ++ "-"%char :: "-"%char :: v.
Proof.
  revert s. induction u as [|x u IH]; intros s Hsingle ->; simpl in *.
  - by destruct Hsingle as [Hnext _]; destruct Hnext.
  - destruct Hsingle as [_ Hsingle]. by apply (IH _ Hsingle).
Qed.

End identifiers_again.

(** X17: the shape of an identifier.  Every character of
    [_generate_id(title)] is a hyphen or a word character that is no white
    space and that [lower()] leaves as it is; the identifier neither
    starts nor ends with a hyphen and holds no two hyphens in a row. *)
Theorem generate_id_shape (title : string) :
  let l := list_ascii_of_string (_generate_id title) in
  Forall (λ c, c = "-"%char ∨
               (re_word c = true ∧ py_isspace c = false ∧ py_lower_char c = c))
    l ∧
  head l ≠ Some "-"%char ∧ last l ≠ Some "-"%char ∧
  ∀ u v, l ≠ u ++ "-"%char :: "-"%char :: v.
Proof.
  intros l. destruct (generate_id_well_formed title) as (Hid & Hsingle & Hh & Hl).
  fold l in Hid, Hsingle, Hh, Hl. split_and!; [| done | done |].
  - eapply Forall_impl; [exact Hid |].
    intros c [->|[Hw Hlow]]; [by left | right].
    split_and!; [done | by apply re_word_not_space | done].
  - intros u v. by apply single_dashes_no_double.
Qed.

(** X18: an identifier is its own identifier:
    [_generate_id(_generate_id(title)) == _generate_id(title)]. *)
Theorem generate_id_idempotent (title : string) :
  _generate_id (_generate_id title) = _generate_id title.
Proof.
  destruct (generate_id_well_formed title) as (Hid & Hsingle & Hh & Hl).
  rewrite <- (string_of_list_ascii_of_string (_generate_id title)) at 2.
  set (l := list_ascii_of_string (_generate_id title)) in *.
  unfold _generate_id at 1. cbv zeta. fold l. f_equal.
  rewrite (id_char_lower l Hid), (id_char_kept l Hid).
  destruct (single_dashes_runs l Hid Hsingle) as [-> _].
  unfold py_strip_dash.
  by rewrite (py_lstrip_dash_id l Hh), (py_rstrip_dash_id l Hl).
Qed.

(** X19: the identifier is empty exactly when the title holds no word
    character (the empty title, or punctuation, hyphens and white space
    only). *)
Theorem generate_id_empty_iff (title : string) :
  _generate_id title = ""%string ↔
  Forall (λ c, re_word c = false) (list_ascii_of_string title).
Proof.
  unfold _generate_id. cbv zeta.
  set (l := list_ascii_of_string title). split.
  - intros Hempty. apply (f_equal list_ascii_of_string) in Hempty.
    rewrite list_ascii_of_string_of_list_ascii in Hempty. simpl in Hempty.
    apply Forall_forall. intros c Hc.
    destruct (re_word c) eqn:Hw; [| done].
    assert (py_lower_char c ∈ py_strip_dash
              (re_sub_runs false (re_sub_other (py_lower_char <$> l)))) as Hin.
    { rewrite <- re_word_lower in Hw.
      pose proof (re_word_not_dash_or_space _ Hw) as Hsep.
      pose proof (not_dash_or_space_not_dash _ Hsep) as Hne.
      apply py_rstrip_dash_keeps, py_lstrip_dash_keeps, re_sub_runs_keeps;
        [done | done | done |].
      apply list_elem_of_filter. split; [by rewrite Hw |].
      by apply list_elem_of_fmap_2. }
    rewrite Hempty in Hin. by apply elem_of_nil in Hin.
  - intros Hnone.
    assert (Forall (λ c, re_dash_or_space c = true)
              (re_sub_other (py_lower_char <$> l))) as Hsep.
    { apply Forall_forall.
      intros c [Hkeep (c0 & -> & Hc0)%list_elem_of_fmap]%list_elem_of_filter.
      rewrite Forall_forall in Hnone. specialize (Hnone c0 Hc0).
      rewrite re_word_lower, Hnone in Hkeep. done. }
    destruct (re_sub_runs_no_word _ Hsep) as [_ [-> | ->]]; done.
Qed.
